(** * Session & Geofence Tracking Engine of Geofence_Cerevyn

    The repository ships the browser UI ([src/frontend/my-react-app]) and a
    travel simulator ([src/test/simulateTravel.js]); the tracking backend the
    UI calls is not part of the sources.  Its core (GeoMath, SessionStore,
    GeofenceEngine, PolylineLog, LocationIngestor) is modelled below from the
    specification of that backend, and the geolocation watch callback of
    [UserTracking.jsx] is embedded from the source.

    Coordinates and distances are real numbers; timestamps are integers
    (seconds for the engine, milliseconds for the browser clock). *)

From Stdlib Require Import Reals Lra ZArith List Sorted.
From Stdlib Require Strings.String Strings.Ascii Numbers.DecimalZ.
From stdpp Require Import gmap list.

Import ListNotations.

(* ===================================================================== *)
(** ** GeoMath *)
(* ===================================================================== *)

Module GeoMath.

Local Open Scope R_scope.

(** A coordinate pair, in degrees. *)
Record Pos := mkPos { lat : R; lng : R }.

(** A circular region: center and radius in meters. *)
Record Circle := mkCircle { center : Pos; radius : R }.

(** The typed failures of the engine (spec section 7). *)
Inductive Error :=
| InvalidCoordinate
| SessionNotFound
| SessionClosed
| SessionAlreadyActive
| SessionAlreadyClosed.

(** Explicit typed results. *)
Inductive res (A : Type) :=
| Ok (a : A)
| Err (e : Error).
Arguments Ok {A} a.
Arguments Err {A} e.

Definition Rle_bool (x y : R) : bool := if Rle_dec x y then true else false.

(** Modelled from the spec: GeoMath range checks (the backend is missing);
    lat in [-90,90], lng in [-180,180]. *)
Definition valid_coord (p : Pos) : bool :=
  Rle_bool (-90) (lat p) && Rle_bool (lat p) 90 &&
  Rle_bool (-180) (lng p) && Rle_bool (lng p) 180.

Definition EARTH_RADIUS_M : R := 6371000.

Definition to_rad (deg : R) : R := deg * PI / 180.

(** Modelled from the spec: the great-circle (haversine) distance of
    [distanceMeters], on valid inputs. *)
Definition haversine (a b : Pos) : R :=
  let phi1 := to_rad (lat a) in
  let phi2 := to_rad (lat b) in
  let dphi := to_rad (lat b - lat a) in
  let dlam := to_rad (lng b - lng a) in
  let h := Rsqr (sin (dphi / 2)) + cos phi1 * cos phi2 * Rsqr (sin (dlam / 2)) in
  2 * EARTH_RADIUS_M * asin (sqrt h).

(** Modelled from the spec: [distanceMeters(a, b)], failing with
    [InvalidCoordinate] on an input outside the coordinate ranges. *)
Definition distanceMeters (a b : Pos) : res R :=
  if valid_coord a && valid_coord b then Ok (haversine a b)
  else Err InvalidCoordinate.

(** Modelled from the spec: [contains(circle, point)], boundary inclusive. *)
Definition contains (c : Circle) (p : Pos) : res bool :=
  match distanceMeters (center c) p with
  | Ok d => Ok (Rle_bool d (radius c))
  | Err e => Err e
  end.

(** The coordinate ranges as a proposition. *)
Definition in_range (p : Pos) : Prop :=
  (-90 <= lat p <= 90) /\ (-180 <= lng p <= 180).

(** The length of a path: the sum of the great-circle distances between
    consecutive points. *)
Fixpoint path_length (ps : list Pos) : R :=
  match ps with
  | p :: ((q :: _) as rest) => haversine p q + path_length rest
  | _ => 0
  end.

(** The running sums of the distances along a path from [p], starting at
    [d0]: one entry per further point. *)
Fixpoint running (d0 : R) (p : Pos) (ps : list Pos) : list R :=
  match ps with
  | [] => []
  | q :: rest => (d0 + haversine p q) :: running (d0 + haversine p q) q rest
  end.

End GeoMath.

(* ===================================================================== *)
(** ** Engine state: SessionStore, GeofenceEngine, PolylineLog *)
(* ===================================================================== *)

Module Engine.
Import GeoMath.

Local Open Scope Z_scope.

Inductive SessionState := Active | Closed.

(** Modelled from the spec: a Session record (section 3); the check-in and
    checkout artifacts (selfie, odometer) are external and omitted. *)
Record Session := mkSession {
  s_emp : Z;
  s_state : SessionState;
  s_start_time : Z;
  s_start_pos : Pos;
  s_last_pos : Pos;
  s_last_ts : Z;
  s_distance : R;
  s_end_time : option Z;
  s_end_pos : option Pos
}.

Record PolylinePoint := mkPoint {
  pp_session : Z;
  pp_seq : nat;
  pp_pos : Pos;
  pp_ts : Z
}.

Record GeofenceDefinition := mkGeofence { g_id : Z; g_circle : Circle }.

Record GeofenceAssignment := mkAssignment {
  a_id : Z;
  a_emp : Z;
  a_geofence : Z;
  a_date : Z
}.

Inductive GeofenceStatus := Pending | Entered (t : Z).

(** The whole engine: sessions by id, the employee -> active session table,
    polylines by session id, geofence statuses by assignment id, and the
    read-only master data of the external registry. *)
Record Engine := mkEngine {
  sessions : gmap Z Session;
  active : gmap Z Z;
  polylines : gmap Z (list PolylinePoint);
  statuses : gmap Z GeofenceStatus;
  geofences : gmap Z GeofenceDefinition;
  assignments : list GeofenceAssignment;
  next_sid : Z
}.

Definition set_sessions (f : gmap Z Session -> gmap Z Session) (e : Engine) : Engine :=
  mkEngine (f (sessions e)) (active e) (polylines e) (statuses e)
    (geofences e) (assignments e) (next_sid e).

Definition set_active (f : gmap Z Z -> gmap Z Z) (e : Engine) : Engine :=
  mkEngine (sessions e) (f (active e)) (polylines e) (statuses e)
    (geofences e) (assignments e) (next_sid e).

Definition set_polylines
    (f : gmap Z (list PolylinePoint) -> gmap Z (list PolylinePoint)) (e : Engine) : Engine :=
  mkEngine (sessions e) (active e) (f (polylines e)) (statuses e)
    (geofences e) (assignments e) (next_sid e).

Definition set_statuses (st : gmap Z GeofenceStatus) (e : Engine) : Engine :=
  mkEngine (sessions e) (active e) (polylines e) st
    (geofences e) (assignments e) (next_sid e).

Definition init (gs : gmap Z GeofenceDefinition) (asgs : list GeofenceAssignment) : Engine :=
  mkEngine ∅ ∅ ∅ ∅ gs asgs 0.

(** *** SessionStore.recordMovement *)

(** A rejected movement reports a zero delta. *)
Inductive Movement := Rejected | Moved (delta : R).

Definition delta_of (m : Movement) : R :=
  match m with Rejected => 0%R | Moved d => d end.

Definition moved (s : Session) (p : Pos) (ts : Z) (d : R) : Session :=
  mkSession (s_emp s) (s_state s) (s_start_time s) (s_start_pos s) p ts
    (s_distance s + d)%R (s_end_time s) (s_end_pos s).

(** Modelled from the spec: [recordMovement(sessionId, position, timestamp)]. *)
Definition recordMovement (e : Engine) (sid : Z) (p : Pos) (ts : Z)
    : res (Movement * Engine) :=
  match sessions e !! sid with
  | None => Err SessionNotFound
  | Some s =>
      match s_state s with
      | Closed => Err SessionClosed
      | Active =>
          if ts <=? s_last_ts s then Ok (Rejected, e)
          else match distanceMeters (s_last_pos s) p with
               | Err err => Err err
               | Ok d => Ok (Moved d, set_sessions (insert sid (moved s p ts d)) e)
               end
      end
  end.

(** *** GeofenceEngine.evaluate *)

Definition SECONDS_PER_DAY : Z := 86400.

Definition date_of (ts : Z) : Z := ts / SECONDS_PER_DAY.

Definition status_of (st : gmap Z GeofenceStatus) (aid : Z) : GeofenceStatus :=
  default Pending (st !! aid).

(** Containment of a position in an assignment's geofence; a geofence
    missing from the registry, or one whose center is not a valid
    coordinate, contains nothing. *)
Definition inside (gs : gmap Z GeofenceDefinition) (a : GeofenceAssignment) (p : Pos) : bool :=
  match gs !! a_geofence a with
  | Some g => match contains (g_circle g) p with Ok b => b | Err _ => false end
  | None => false
  end.

(** Modelled from the spec: the loop of [evaluate] over the assignments due
    today; only Pending ones are tested, and a contained one becomes
    Entered at [ts]. *)
Fixpoint evaluate_loop (gs : gmap Z GeofenceDefinition) (emp : Z) (p : Pos)
    (date ts : Z) (asgs : list GeofenceAssignment) (st : gmap Z GeofenceStatus)
    : list Z * gmap Z GeofenceStatus :=
  match asgs with
  | [] => ([], st)
  | a :: rest =>
      if (a_emp a =? emp) && (a_date a =? date) then
        match status_of st (a_id a) with
        | Entered _ => evaluate_loop gs emp p date ts rest st
        | Pending =>
            if inside gs a p then
              let '(l, st') := evaluate_loop gs emp p date ts rest
                                 (<[a_id a := Entered ts]> st) in
              (a_id a :: l, st')
            else evaluate_loop gs emp p date ts rest st
        end
      else evaluate_loop gs emp p date ts rest st
  end.

(** Modelled from the spec: [evaluate(employeeId, position, date)]. *)
Definition evaluate (e : Engine) (emp : Z) (p : Pos) (date ts : Z) : list Z * Engine :=
  let '(l, st) := evaluate_loop (geofences e) emp p date ts (assignments e) (statuses e) in
  (l, set_statuses st e).

(** *** PolylineLog.maybeAppend *)

Definition POLYLINE_MIN_INTERVAL : Z := 60.

Definition pointsFor (e : Engine) (sid : Z) : list PolylinePoint :=
  default [] (polylines e !! sid).

(** A point appended "in the last 60 seconds" before [ts], by timestamp. *)
Definition recent (ts : Z) (q : PolylinePoint) : bool :=
  (ts - POLYLINE_MIN_INTERVAL <? pp_ts q) && (pp_ts q <=? ts).

Definition append_point (e : Engine) (sid : Z) (p : Pos) (ts : Z) : Engine :=
  let pts := pointsFor e sid in
  set_polylines (insert sid (pts ++ [mkPoint sid (length pts) p ts])) e.

(** Modelled from the spec: [maybeAppend(sessionId, position, timestamp)]. *)
Definition maybeAppend (e : Engine) (sid : Z) (p : Pos) (ts : Z) : bool * Engine :=
  if existsb (recent ts) (pointsFor e sid) then (false, e)
  else (true, append_point e sid p ts).

(** *** SessionStore.startSession and closeSession *)

(** Modelled from the spec: [startSession(employeeId, position, ...)]; the
    start position is the session's first polyline point (section 8). *)
Definition startSession (e : Engine) (emp : Z) (p : Pos) (now : Z) : res (Z * Engine) :=
  match active e !! emp with
  | Some _ => Err SessionAlreadyActive
  | None =>
      let sid := next_sid e in
      let s := mkSession emp Active now p p now 0%R None None in
      let e1 := mkEngine (<[sid := s]> (sessions e)) (<[emp := sid]> (active e))
                  (polylines e) (statuses e) (geofences e) (assignments e) (sid + 1) in
      Ok (sid, snd (maybeAppend e1 sid p now))
  end.

Definition closed (s : Session) (p : Pos) (now : Z) : Session :=
  mkSession (s_emp s) Closed (s_start_time s) (s_start_pos s) (s_last_pos s)
    (s_last_ts s) (s_distance s) (Some now) (Some p).

(** Modelled from the spec: [closeSession(sessionId, endPosition, ...)]; the
    end position is recorded as the checkout point of the polyline. *)
Definition closeSession (e : Engine) (sid : Z) (p : Pos) (now : Z) : res (Session * Engine) :=
  match sessions e !! sid with
  | None => Err SessionNotFound
  | Some s =>
      match s_state s with
      | Closed => Err SessionAlreadyClosed
      | Active =>
          let s' := closed s p now in
          let e1 := set_active (delete (s_emp s)) (set_sessions (insert sid s') e) in
          Ok (s', append_point e1 sid p now)
      end
  end.

End Engine.

(* ===================================================================== *)
(** ** LocationIngestor *)
(* ===================================================================== *)

Module Ingestor.
Import GeoMath Engine.

Local Open Scope Z_scope.

(** The component calls made by one update, in order. *)
Inductive Call :=
| CallRecordMovement (m : Movement)
| CallEvaluate (entered : list Z)
| CallMaybeAppend (logged : bool).

(** State, error and call-log monad of the ingestor. *)
Definition M (A : Type) : Type := Engine -> res A * Engine * list Call.

Definition ret {A} (a : A) : M A := fun e => (Ok a, e, []).

Definition bind {A B} (m : M A) (k : A -> M B) : M B :=
  fun e =>
    match m e with
    | (Ok a, e1, w1) => let '(r, e2, w2) := k a e1 in (r, e2, w1 ++ w2)
    | (Err x, e1, w1) => (Err x, e1, w1)
    end.

Notation "'let*' x ':=' m 'in' k" := (bind m (fun x => k))
  (at level 200, x name, m at level 100, k at level 200).

Definition get : M Engine := fun e => (Ok e, e, []).

Definition lift {A} (r : res A) : M A :=
  fun e => match r with Ok a => (Ok a, e, []) | Err x => (Err x, e, []) end.

Definition recordMovement_m (sid : Z) (p : Pos) (ts : Z) : M Movement :=
  fun e => match recordMovement e sid p ts with
           | Ok (m, e') => (Ok m, e', [CallRecordMovement m])
           | Err x => (Err x, e, [])
           end.

Definition evaluate_m (emp : Z) (p : Pos) (date ts : Z) : M (list Z) :=
  fun e => let '(l, e') := evaluate e emp p date ts in (Ok l, e', [CallEvaluate l]).

Definition maybeAppend_m (sid : Z) (p : Pos) (ts : Z) : M bool :=
  fun e => let '(b, e') := maybeAppend e sid p ts in (Ok b, e', [CallMaybeAppend b]).

Record UpdateResult := mkUpdateResult {
  accepted : bool;
  polylineLogged : bool;
  geofencesEntered : list Z
}.

(** A stale update is accepted by the caller as a no-op. *)
Definition stale_result : UpdateResult := mkUpdateResult false false [].

Definition active_session (e : Engine) (sid : Z) : res Session :=
  match sessions e !! sid with
  | None => Err SessionNotFound
  | Some s => match s_state s with Active => Ok s | Closed => Err SessionClosed end
  end.

(** Modelled from the spec: [LocationIngestor.update], steps 1 to 6 of
    section 4.4. *)
Definition update (sid : Z) (p : Pos) (ts : Z) : M UpdateResult :=
  let* e := get in
  let* s := lift (active_session e sid) in
  let* _ := lift (if valid_coord p then Ok tt else Err InvalidCoordinate) in
  let* m := recordMovement_m sid p ts in
  match m with
  | Rejected => ret stale_result
  | Moved _ =>
      let* entered := evaluate_m (s_emp s) p (date_of ts) ts in
      let* logged := maybeAppend_m sid p ts in
      ret (mkUpdateResult true logged entered)
  end.

(** *** Operations of the engine and reachable states *)

Inductive Op :=
| OpStart (emp : Z) (p : Pos) (now : Z)
| OpUpdate (sid : Z) (p : Pos) (ts : Z)
| OpClose (sid : Z) (p : Pos) (now : Z).

(** One operation: the next state and the assignments it reports entered. *)
Definition step (e : Engine) (op : Op) : Engine * list Z :=
  match op with
  | OpStart emp p now =>
      match startSession e emp p now with Ok (_, e') => (e', []) | Err _ => (e, []) end
  | OpUpdate sid p ts =>
      let '(r, e', _) := update sid p ts e in
      (e', match r with Ok u => geofencesEntered u | Err _ => [] end)
  | OpClose sid p now =>
      match closeSession e sid p now with Ok (_, e') => (e', []) | Err _ => (e, []) end
  end.

Fixpoint run (e : Engine) (ops : list Op) : Engine * list Z :=
  match ops with
  | [] => (e, [])
  | op :: rest =>
      let '(e1, l1) := step e op in
      let '(e2, l2) := run e1 rest in
      (e2, l1 ++ l2)
  end.

Inductive reachable : Engine -> Prop :=
| reach_init gs asgs : reachable (init gs asgs)
| reach_step e op : reachable e -> reachable (fst (step e op)).

(** The cumulative distance of a session (0 for an unknown one). *)
Definition distance_of (e : Engine) (sid : Z) : R :=
  match sessions e !! sid with Some s => s_distance s | None => 0%R end.

(** A stream of location updates for one session: each answer with the
    session's cumulative distance right after it. *)
Fixpoint feed (e : Engine) (sid : Z) (ups : list (Pos * Z))
    : list (res UpdateResult * R) * Engine :=
  match ups with
  | [] => ([], e)
  | (p, ts) :: rest =>
      let '(r, e1, _) := update sid p ts e in
      let '(tr, e2) := feed e1 sid rest in
      ((r, distance_of e1 sid) :: tr, e2)
  end.

End Ingestor.

(* ===================================================================== *)
(** ** UserTracking.jsx: the geolocation watch callback *)
(* ===================================================================== *)

Module UserTracking.

Local Open Scope Z_scope.

Definition UPDATE_INTERVAL_MS : Z := 10000.

(** A POST to /tracking/update-location: client time it was sent at,
    parsed session id and coordinates. *)
Record Request := mkRequest { rq_time : Z; rq_session : Z; rq_lat : R; rq_lng : R }.

(** The closure state of the effect: [lastUpdateTime], the marker [pos],
    [isTracking], and the requests sent so far. *)
Record Tracker := mkTracker {
  lastUpdateTime : Z;
  pos : option (R * R);
  isTracking : bool;
  sent : list Request
}.

Definition start_tracker : Tracker := mkTracker 0 None true [].

(** The watch callback of [startTracking], called with [Date.now()] and the
    coordinates; [parsed] is [parseInt(sessionId)] ([None] for NaN). *)
Definition on_position (parsed : option Z) (t : Tracker) (now : Z) (la lo : R) : Tracker :=
  let t1 := mkTracker (lastUpdateTime t) (Some (la, lo)) (isTracking t) (sent t) in
  if now - lastUpdateTime t1 >=? UPDATE_INTERVAL_MS then
    match parsed with
    | None => mkTracker now (pos t1) false (sent t1)
    | Some sid => mkTracker now (pos t1) (isTracking t1) (sent t1 ++ [mkRequest now sid la lo])
    end
  else t1.

Fixpoint watch (parsed : option Z) (t : Tracker) (evs : list (Z * R * R)) : Tracker :=
  match evs with
  | [] => t
  | (now, la, lo) :: rest => watch parsed (on_position parsed t now la lo) rest
  end.

End UserTracking.

(* ===================================================================== *)
(** ** The travel simulator of [src/test/simulateTravel.js] *)
(* ===================================================================== *)

Module Simulation.
Import GeoMath Engine.

Local Open Scope R_scope.

(** "Geofence North" of [createTestGeofences]. *)
Definition north : GeofenceDefinition :=
  mkGeofence 1 (mkCircle (mkPos 17.458 78.3974) 150).

Definition north_registry : gmap Z GeofenceDefinition := {[ 1%Z := north ]}.

(** Assignment 1: employee 7 must visit Geofence North on day 0. *)
Definition north_assignment : GeofenceAssignment := mkAssignment 1 7 1 0.

(** The North route of [gpsPath]: six steps to the geofence and back. *)
Definition gpsPath_north : list Pos :=
  [ mkPos 17.452 78.3974;   (* START *)
    mkPos 17.453 78.3974;   (* North 1 *)
    mkPos 17.454 78.3974;   (* North 2 *)
    mkPos 17.455 78.3974;   (* North 3 *)
    mkPos 17.456 78.3974;   (* North 4 *)
    mkPos 17.457 78.3974;   (* North 5 *)
    mkPos 17.458 78.3974;   (* GEOFENCE NORTH *)
    mkPos 17.457 78.3974;   (* Return 1 *)
    mkPos 17.455 78.3974;   (* Return 2 *)
    mkPos 17.453 78.3974;   (* Return 3 *)
    mkPos 17.452 78.3974 ]. (* Back Center *)

(** The geofence evaluations of a walk, one update every 10 seconds
    ([simulateTravel]); each entry lists the assignments newly entered. *)
Fixpoint evaluations (gs : gmap Z GeofenceDefinition) (asgs : list GeofenceAssignment)
    (emp date : Z) (st : gmap Z GeofenceStatus) (ts : Z) (ps : list Pos) : list (list Z) :=
  match ps with
  | [] => []
  | p :: rest =>
      let '(l, st') := evaluate_loop gs emp p date ts asgs st in
      l :: evaluations gs asgs emp date st' (ts + 10)%Z rest
  end.

End Simulation.

(* ===================================================================== *)
(** ** The test pipeline of [src/test/simulateTravel.js] *)
(* ===================================================================== *)

Module Pipeline.
Import GeoMath String.

Local Open Scope Z_scope.

(** A geofence as posted to /geofence/create. *)
Record GeofenceSpec := mkGeofenceSpec {
  gf_name : string; center_lat : R; center_lng : R; radius_m : R
}.

(** The [geofences] array of [createTestGeofences]. *)
Definition test_geofences : list GeofenceSpec :=
  [ mkGeofenceSpec "Geofence North" 17.458 78.3974 150;
    mkGeofenceSpec "Geofence East" 17.452 78.4040 150;
    mkGeofenceSpec "Geofence South" 17.446 78.3974 150;
    mkGeofenceSpec "Geofence West" 17.452 78.3910 150 ]%R.

(** [gpsPath]: the North route, then East, South and West. *)
Definition gpsPath : list Pos :=
  Simulation.gpsPath_north ++
  [ mkPos 17.452 78.3984; mkPos 17.452 78.3994; mkPos 17.452 78.4004;
    mkPos 17.452 78.4014; mkPos 17.452 78.4024; mkPos 17.452 78.4034;
    mkPos 17.452 78.4040; mkPos 17.452 78.4024; mkPos 17.452 78.4004;
    mkPos 17.452 78.3974;
    mkPos 17.451 78.3974; mkPos 17.450 78.3974; mkPos 17.449 78.3974;
    mkPos 17.448 78.3974; mkPos 17.447 78.3974; mkPos 17.446 78.3974;
    mkPos 17.448 78.3974; mkPos 17.450 78.3974; mkPos 17.452 78.3974;
    mkPos 17.452 78.3964; mkPos 17.452 78.3954; mkPos 17.452 78.3944;
    mkPos 17.452 78.3934; mkPos 17.452 78.3924; mkPos 17.452 78.3914;
    mkPos 17.452 78.3910; mkPos 17.452 78.3934; mkPos 17.452 78.3964;
    mkPos 17.452 78.3974 ]%R.

(** The requests the pipeline posts through [api]. *)
Inductive Request :=
| PostGeofenceCreate (g : GeofenceSpec)
| PostEmployeeCreate (now : Z)          (* name and employee_code embed [Date.now()] *)
| PostSessionStart (employee_id : Z)    (* check-in at 17.452237, 78.39744 with two files *)
| PostUpdateLocation (session_id employee_id : Z) (lat lng : R)
| PostCheckout (session_id : Z).

(** What the script observes of the outside world: the clock [Date.now()]
    in milliseconds, and for the [n]-th request the time its promise takes
    to settle and the id field of the response ([None] when the promise is
    rejected). The requests sent so far are logged with their send time. *)
Record World := mkWorld {
  clock : Z;
  network : nat -> Z * option Z;
  sent_count : nat;
  requests : list (Z * Request)
}.

(** An async computation; [None] is a thrown exception. *)
Definition Sim (A : Type) : Type := World -> option A * World.

Definition ret {A} (a : A) : Sim A := fun w => (Some a, w).

Definition bind {A B} (m : Sim A) (k : A -> Sim B) : Sim B :=
  fun w => match m w with (Some a, w1) => k a w1 | (None, w1) => (None, w1) end.

Notation "'let*' x ':=' m 'in' k" := (bind m (fun x => k))
  (at level 200, x name, m at level 100, k at level 200).

(** [await api.post(...)]: the request is sent now and the script resumes
    when the promise settles. *)
Definition post (r : Request) : Sim Z :=
  fun w =>
    let '(latency, answer) := network w (sent_count w) in
    (answer, mkWorld (clock w + latency) (network w) (S (sent_count w))
               (requests w ++ [(clock w, r)])).

(** [await sleep(ms)]. *)
Definition sleep (ms : Z) : Sim unit :=
  fun w => (Some tt, mkWorld (clock w + ms) (network w) (sent_count w) (requests w)).

(** [Date.now()]. *)
Definition now_ms : Sim Z := fun w => (Some (clock w), w).

(** [try { m } catch { h }]. *)
Definition try_catch {A} (m : Sim A) (h : Sim A) : Sim A :=
  fun w => match m w with (None, w1) => h w1 | r => r end.

(** The loop of [createTestGeofences]: a failed post is caught and the loop
    goes on; a successful one pushes [res.data.geofence_id]. *)
Fixpoint create_loop (gfs : list GeofenceSpec) (createdIds : list Z) : Sim (list Z) :=
  match gfs with
  | [] => ret createdIds
  | gf :: rest =>
      let* createdIds' :=
        try_catch (let* id := post (PostGeofenceCreate gf) in ret (createdIds ++ [id]))
                  (ret createdIds) in
      create_loop rest createdIds'
  end.

Definition createTestGeofences : Sim (list Z) := create_loop test_geofences [].

Definition createEmployee : Sim Z :=
  let* now := now_ms in post (PostEmployeeCreate now).

Definition startSession (employeeId : Z) : Sim Z := post (PostSessionStart employeeId).

(** The loop of [simulateTravel]: post each point, and sleep 10 seconds
    unless it is the last one. *)
Fixpoint travel_loop (sessionId employeeId : Z) (ps : list Pos) : Sim unit :=
  match ps with
  | [] => ret tt
  | p :: rest =>
      let* _ := post (PostUpdateLocation sessionId employeeId (lat p) (lng p)) in
      match rest with
      | [] => ret tt
      | _ :: _ => let* _ := sleep 10000 in travel_loop sessionId employeeId rest
      end
  end.

Definition simulateTravel (sessionId employeeId : Z) : Sim unit :=
  travel_loop sessionId employeeId gpsPath.

Definition checkoutSession (sessionId : Z) : Sim unit :=
  let* _ := post (PostCheckout sessionId) in ret tt.

(** [runPipeline]: every step awaited in one try block whose catch only logs. *)
Definition runPipeline : Sim unit :=
  try_catch
    (let* _ := createTestGeofences in
     let* employeeId := createEmployee in
     let* sessionId := startSession employeeId in
     let* _ := simulateTravel sessionId employeeId in
     let* _ := sleep 5000 in
     checkoutSession sessionId)
    (ret tt).

End Pipeline.

(* ===================================================================== *)
(** ** JavaScript [parseInt] and [Number.prototype.toString] *)
(* ===================================================================== *)

Module JsNumber.
Import String Ascii.

Local Open Scope Z_scope.

(** White space and line terminators of ECMAScript below code point 128:
    TAB, LF, VT, FF, CR and SPACE. *)
Definition is_ws (c : ascii) : bool :=
  let n := nat_of_ascii c in
  (Nat.eqb n 9 || Nat.eqb n 10 || Nat.eqb n 11 || Nat.eqb n 12 || Nat.eqb n 13 ||
   Nat.eqb n 32)%bool.

Fixpoint trim_start (s : string) : string :=
  match s with
  | EmptyString => EmptyString
  | String c r => if is_ws c then trim_start r else s
  end.

(** The value of [c] as a digit in base [radix]: 0-9, then a-z or A-Z for
    10 to 35. *)
Definition digit_value (radix : Z) (c : ascii) : option Z :=
  let n := Z.of_nat (nat_of_ascii c) in
  let d := if (48 <=? n) && (n <=? 57) then Some (n - 48)
           else if (97 <=? n) && (n <=? 122) then Some (n - 87)
           else if (65 <=? n) && (n <=? 90) then Some (n - 55)
           else None in
  match d with Some v => if v <? radix then Some v else None | None => None end.

(** The value of the longest prefix of base-[radix] digits, accumulated onto
    [acc]; [acc] is returned unchanged when no digit follows. *)
Fixpoint digits_value (radix : Z) (s : string) (acc : option Z) : option Z :=
  match s with
  | EmptyString => acc
  | String c r =>
      match digit_value radix c with
      | Some d => digits_value radix r (Some (default 0 acc * radix + d))
      | None => acc
      end
  end.

(** [parseInt(s)] without a radix (ECMAScript, parseInt steps 1 to 16) on
    an ASCII string; [None] is NaN. Leading white space is skipped, one
    sign is read, a [0x] or [0X] prefix selects base 16, and the longest
    digit prefix is read. The value is the exact integer; JavaScript then
    rounds it to a double, which changes nothing up to 2^53. *)
Definition parseInt (s : string) : option Z :=
  let s1 := trim_start s in
  let '(sign, s2) :=
    match s1 with
    | String c r =>
        if Ascii.eqb c "-"%char then (-1, r)
        else if Ascii.eqb c "+"%char then (1, r) else (1, s1)
    | EmptyString => (1, s1)
    end in
  let '(radix, s3) :=
    match s2 with
    | String c (String x r) =>
        if (Ascii.eqb c "0"%char && (Ascii.eqb x "x"%char || Ascii.eqb x "X"%char))%bool
        then (16, r) else (10, s2)
    | _ => (10, s2)
    end in
  match digits_value radix s3 None with
  | Some v => Some (sign * v)
  | None => None
  end.

Fixpoint uint_digits (d : Decimal.uint) : string :=
  match d with
  | Decimal.Nil => EmptyString
  | Decimal.D0 r => String "0" (uint_digits r)
  | Decimal.D1 r => String "1" (uint_digits r)
  | Decimal.D2 r => String "2" (uint_digits r)
  | Decimal.D3 r => String "3" (uint_digits r)
  | Decimal.D4 r => String "4" (uint_digits r)
  | Decimal.D5 r => String "5" (uint_digits r)
  | Decimal.D6 r => String "6" (uint_digits r)
  | Decimal.D7 r => String "7" (uint_digits r)
  | Decimal.D8 r => String "8" (uint_digits r)
  | Decimal.D9 r => String "9" (uint_digits r)
  end.

(** [n.toString()] for an integral Number of magnitude below 10^21: its
    decimal digits, with a leading [-] when negative. *)
Definition toString (n : Z) : string :=
  match Z.to_int n with
  | Decimal.Pos d => uint_digits d
  | Decimal.Neg d => String "-" (uint_digits d)
  end.

(** What may follow a number so that it ends its digits: no decimal digit,
    and no [x] or [X] (after a lone [0] it would start a hexadecimal
    prefix). *)
Definition ends_number (rest : string) : Prop :=
  forall c r, rest = String c r ->
    digit_value 10 c = None /\ c <> "x"%char /\ c <> "X"%char.

End JsNumber.

(* ===================================================================== *)
(** ** The rest of [UserTracking.jsx] *)
(* ===================================================================== *)

Module UserTrackingPage.
Import String UserTracking JsNumber.

Local Open Scope Z_scope.

(** The mount check of [UserTracking]: the page renders the tracker only if
    [!sessionId || isNaN(parseInt(sessionId))] is false; [None] is an
    undefined route parameter. *)
Definition session_param_ok (sessionId : option string) : bool :=
  match sessionId with
  | None => false
  | Some s =>
      match s with
      | EmptyString => false
      | _ => match parseInt s with Some _ => true | None => false end
      end
  end.


End UserTrackingPage.

(* ===================================================================== *)
(** ** [LiveTracking.jsx] *)
(* ===================================================================== *)

Module LiveTracking.
Import String JsNumber.

Local Open Scope Z_scope.

(** A row of /admin/employee/:id/sessions; [check_out_time] is [None] for
    null. *)
Record SessionRow := mkSessionRow { session_id : Z; check_out_time : option string }.

(** The body of /admin/live-location/:id; [None] fields are null or missing. *)
Record LiveLocation := mkLiveLocation {
  ll_lat : option R; ll_lng : option R; ll_timestamp : option string
}.

(** The [sessionId] state: the empty string it starts from, or a number. *)
Inductive SidVal := SidStr (s : string) | SidNum (n : Z).

(** JavaScript truthiness of the [sessionId] state. *)
Definition sid_truthy (v : SidVal) : bool :=
  match v with
  | SidStr s => match s with EmptyString => false | _ => true end
  | SidNum n => negb (n =? 0)
  end.

(** Truthiness of a JSON number field (JSON has no NaN). *)
Definition num_truthy (x : option R) : bool :=
  match x with
  | None => false
  | Some v => if Req_EM_T v 0 then false else true
  end.

Inductive Status := Msg (s : string) | LastUpdate (timestamp : option string).

Inductive Fetch (A : Type) := Fetched (data : A) | FetchFailed.
Arguments Fetched {A} data.
Arguments FetchFailed {A}.

Record LiveState := mkLiveState {
  ls_sessionId : SidVal; ls_pos : option (R * option R); ls_status : Status
}.

(** [!s.check_out_time]. *)
Definition is_open (s : SessionRow) : bool :=
  match check_out_time s with
  | None => true
  | Some t => match t with EmptyString => true | _ => false end
  end.

(** [loadSessions] for the selected [employeeId]; the answer to its GET is
    [resp] ([None] data is null). Returns the URLs requested and the new
    state. *)
Definition loadSessions (employeeId : string) (resp : Fetch (option (list SessionRow)))
    (st : LiveState) : list string * LiveState :=
  match employeeId with
  | EmptyString => ([], mkLiveState (SidStr "") (ls_pos st) (ls_status st))
  | _ =>
      (["/admin/employee/" ++ employeeId ++ "/sessions"]%string,
       match resp with
       | FetchFailed => mkLiveState (ls_sessionId st) (ls_pos st) (Msg "Failed to load sessions")
       | Fetched data =>
           let list := match data with Some l => l | None => [] end in
           let active := find is_open list in
           let chosen := match active with Some a => Some a | None => hd_error list end in
           match chosen with
           | Some c =>
               mkLiveState (SidNum (session_id c)) (ls_pos st)
                 (Msg (match active with
                       | Some _ => "Tracking active session"
                       | None => "Tracking latest closed session"
                       end))
           | None => mkLiveState (SidStr "") (ls_pos st) (Msg "No sessions for employee")
           end
       end)
  end.

Definition sid_text (v : SidVal) : string :=
  match v with SidStr s => s | SidNum n => toString n end.

(** [poll] for the current [sessionId]; the answer to its GET is [resp]
    ([None] data is null, and reading [res.data.lat] then throws, which
    the catch reports). *)
Definition poll (sessionId : SidVal) (resp : Fetch (option LiveLocation)) (st : LiveState)
    : list string * LiveState :=
  if negb (sid_truthy sessionId) then ([], st)
  else
    (["/admin/live-location/" ++ sid_text sessionId]%string,
     match resp with
     | FetchFailed => mkLiveState (ls_sessionId st) (ls_pos st) (Msg "Polling failed")
     | Fetched None => mkLiveState (ls_sessionId st) (ls_pos st) (Msg "Polling failed")
     | Fetched (Some d) =>
         match ll_lat d with
         | Some la =>
             if num_truthy (Some la)
             then mkLiveState (ls_sessionId st) (Some (la, ll_lng d)) (LastUpdate (ll_timestamp d))
             else mkLiveState (ls_sessionId st) (ls_pos st) (Msg "No live data yet")
         | None => mkLiveState (ls_sessionId st) (ls_pos st) (Msg "No live data yet")
         end
     end).

End LiveTracking.

(* ===================================================================== *)
(** ** Invariants of the reachable engine states *)
(* ===================================================================== *)

Module Invariants.
Import GeoMath Engine.

Local Open Scope Z_scope.

(** Consecutive polyline points at least [POLYLINE_MIN_INTERVAL] apart. *)
Fixpoint spaced (pts : list PolylinePoint) : Prop :=
  match pts with
  | p :: ((q :: _) as rest) => pp_ts p + POLYLINE_MIN_INTERVAL <= pp_ts q /\ spaced rest
  | _ => True
  end.

Record Inv (e : Engine) : Prop := {
  inv_fresh : forall sid, next_sid e <= sid -> sessions e !! sid = None;
  inv_polyline_owner : forall sid, sessions e !! sid = None -> polylines e !! sid = None;
  inv_active_table : forall emp sid, active e !! emp = Some sid ->
    exists s, sessions e !! sid = Some s /\ s_emp s = emp /\ s_state s = Active;
  inv_active_indexed : forall sid s, sessions e !! sid = Some s -> s_state s = Active ->
    active e !! s_emp s = Some sid;
  inv_active_polyline : forall sid s, sessions e !! sid = Some s -> s_state s = Active ->
    spaced (pointsFor e sid) /\ Forall (fun q => pp_ts q <= s_last_ts s) (pointsFor e sid);
  inv_closed_polyline : forall sid s, sessions e !! sid = Some s -> s_state s = Closed ->
    exists pts q, pointsFor e sid = pts ++ [q] /\ spaced pts
}.

End Invariants.

(* ===================================================================== *)
(** * Proofs *)
(* ===================================================================== *)

Module GeoMathFacts.
Import GeoMath.

Local Open Scope R_scope.

Lemma Rle_bool_true x y : Rle_bool x y = true <-> x <= y.
Proof. unfold Rle_bool; destruct (Rle_dec x y); split; intros; auto; congruence. Qed.

Lemma Rle_bool_false x y : Rle_bool x y = false <-> y < x.
Proof.
  unfold Rle_bool; destruct (Rle_dec x y); split; intros; try congruence; lra.
Qed.

Lemma valid_coord_spec p : valid_coord p = true <-> in_range p.
Proof.
  unfold valid_coord, in_range.
  rewrite !andb_true_iff, !Rle_bool_true. tauto.
Qed.

Lemma haversine_refl a : haversine a a = 0.
Proof.
  unfold haversine, to_rad; cbv zeta.
  replace ((lat a - lat a) * PI / 180 / 2) with 0 by field.
  replace ((lng a - lng a) * PI / 180 / 2) with 0 by field.
  rewrite sin_0, Rsqr_0, Rmult_0_r, Rplus_0_r, sqrt_0, asin_0. ring.
Qed.

Lemma haversine_sym a b : haversine a b = haversine b a.
Proof.
  unfold haversine, to_rad; cbv zeta.
  replace ((lat a - lat b) * PI / 180 / 2) with (- ((lat b - lat a) * PI / 180 / 2)) by field.
  replace ((lng a - lng b) * PI / 180 / 2) with (- ((lng b - lng a) * PI / 180 / 2)) by field.
  rewrite !sin_neg, <- !Rsqr_neg.
  rewrite (Rmult_comm (cos (lat b * PI / 180)) (cos (lat a * PI / 180))).
  reflexivity.
Qed.

Lemma haversine_nonneg a b : 0 <= haversine a b.
Proof.
  unfold haversine; cbv zeta.
  assert (H : 0 <= asin (sqrt (Rsqr (sin ((to_rad (lat b - lat a)) / 2)) +
                    cos (to_rad (lat a)) * cos (to_rad (lat b)) *
                    Rsqr (sin ((to_rad (lng b - lng a)) / 2))))).
  { pose proof (sqrt_pos (Rsqr (sin ((to_rad (lat b - lat a)) / 2)) +
                    cos (to_rad (lat a)) * cos (to_rad (lat b)) *
                    Rsqr (sin ((to_rad (lng b - lng a)) / 2)))) as Hs.
    revert Hs. generalize (sqrt (Rsqr (sin ((to_rad (lat b - lat a)) / 2)) +
                    cos (to_rad (lat a)) * cos (to_rad (lat b)) *
                    Rsqr (sin ((to_rad (lng b - lng a)) / 2)))).
    intros x Hx. unfold asin.
    destruct (Rle_dec x (-1)); [lra|].
    destruct (Rle_dec 1 x); [pose proof PI_RGT_0; lra|].
    assert (Hq : 0 <= x / sqrt (1 - Rsqr x)).
    { unfold Rdiv. apply Rmult_le_pos; [lra|]. left. apply Rinv_0_lt_compat.
      apply sqrt_lt_R0. assert (x * x < 1) by nra. unfold Rsqr. lra. }
    rewrite <- atan_0. destruct (Req_dec 0 (x / sqrt (1 - Rsqr x))) as [E | E].
    - rewrite <- E. lra.
    - apply Rlt_le, atan_increasing. lra. }
  unfold EARTH_RADIUS_M. nra.
Qed.

(** Along a meridian the haversine distance is the arc of the latitude
    difference. *)
Lemma haversine_meridian a b :
  lng a = lng b ->
  Rabs (to_rad (lat b - lat a) / 2) <= PI / 2 ->
  haversine a b = EARTH_RADIUS_M * Rabs (to_rad (lat b - lat a)).
Proof.
  intros Hl Hb. unfold haversine; cbv zeta.
  rewrite Hl, Rminus_diag. unfold to_rad at 4.
  replace (0 * PI / 180 / 2) with 0 by field.
  rewrite sin_0, Rsqr_0, Rmult_0_r, Rplus_0_r, sqrt_Rsqr_abs.
  set (x := to_rad (lat b - lat a)) in *.
  destruct (Rle_lt_dec 0 (x / 2)) as [Hx | Hx].
  - rewrite Rabs_pos_eq in Hb by lra.
    rewrite (Rabs_pos_eq (sin (x / 2))) by (apply sin_ge_0; lra).
    rewrite asin_sin by lra.
    rewrite (Rabs_pos_eq x) by lra. field.
  - rewrite Rabs_left in Hb by lra.
    replace (x / 2) with (- (- (x / 2))) by ring.
    rewrite sin_neg, Rabs_Ropp.
    rewrite (Rabs_pos_eq (sin (- (x / 2)))) by (apply sin_ge_0; lra).
    rewrite asin_sin by lra.
    rewrite (Rabs_left x) by lra. field.
Qed.

End GeoMathFacts.

Module WalkFacts.
Import GeoMath Engine Simulation GeoMathFacts.

Local Open Scope R_scope.

Lemma evaluations_cons gs asgs emp date st ts p ps :
  evaluations gs asgs emp date st ts (p :: ps) =
  let '(l, st') := evaluate_loop gs emp p date ts asgs st in
  l :: evaluations gs asgs emp date st' (ts + 10)%Z ps.
Proof. reflexivity. Qed.

(** One assignment due today: the loop tests it only while it is Pending. *)
Lemma evaluate_single gs emp p date ts a st :
  a_emp a = emp -> a_date a = date ->
  evaluate_loop gs emp p date ts [a] st =
  match status_of st (a_id a) with
  | Entered _ => ([], st)
  | Pending => if inside gs a p then ([a_id a], <[a_id a := Entered ts]> st) else ([], st)
  end.
Proof.
  intros <- <-. cbn [evaluate_loop]. rewrite !Z.eqb_refl. simpl andb.
  destruct (status_of st (a_id a)); [destruct (inside gs a p)|]; reflexivity.
Qed.

Lemma north_center_in_range : in_range (center (g_circle north)).
Proof. unfold in_range; simpl; lra. Qed.

Lemma to_rad_half_bound d : -180 <= d <= 180 -> Rabs (to_rad d / 2) <= PI / 2.
Proof.
  intros Hd. pose proof PI_RGT_0. unfold to_rad. apply Rabs_le. split; nra.
Qed.

Lemma north_distance la :
  -90 <= la <= 90 ->
  haversine (center (g_circle north)) (mkPos la 78.3974) =
  EARTH_RADIUS_M * Rabs (to_rad (la - 17.458)).
Proof.
  intros Hla. rewrite haversine_meridian; simpl; try reflexivity.
  apply to_rad_half_bound. lra.
Qed.

Lemma inside_north la :
  -90 <= la <= 90 ->
  inside north_registry north_assignment (mkPos la 78.3974) =
  Rle_bool (haversine (center (g_circle north)) (mkPos la 78.3974)) 150.
Proof.
  intros Hla. unfold inside.
  change (north_registry !! a_geofence north_assignment) with (Some north).
  unfold contains, distanceMeters.
  assert (Hc := north_center_in_range). apply valid_coord_spec in Hc. rewrite Hc.
  assert (Hp : valid_coord (mkPos la 78.3974) = true).
  { apply valid_coord_spec. unfold in_range; simpl; lra. }
  rewrite Hp. reflexivity.
Qed.

(** The distance from the North center of a point [m] thousandths of a
    degree south of it, on its meridian. *)
Lemma north_distance_south m :
  0 <= m <= 100 ->
  haversine (center (g_circle north)) (mkPos (17.458 - m / 1000) 78.3974) =
  6371 * m * PI / 180.
Proof.
  intros Hm. rewrite north_distance by lra.
  rewrite Rabs_left1.
  - unfold EARTH_RADIUS_M, to_rad. field.
  - unfold to_rad. pose proof PI_RGT_0. nra.
Qed.

End WalkFacts.

Module GeoClaims.
Import GeoMath Engine Simulation GeoMathFacts WalkFacts.

Local Open Scope R_scope.

Lemma inside_north_south m :
  0 <= m <= 100 ->
  inside north_registry north_assignment (mkPos (17.458 - m / 1000) 78.3974) =
  Rle_bool (6371 * m * PI / 180) 150.
Proof.
  intros Hm. rewrite inside_north by lra. rewrite north_distance_south by lra. reflexivity.
Qed.

Lemma north_walk_positions :
  gpsPath_north =
  [ mkPos (17.458 - 6 / 1000) 78.3974; mkPos (17.458 - 5 / 1000) 78.3974;
    mkPos (17.458 - 4 / 1000) 78.3974; mkPos (17.458 - 3 / 1000) 78.3974;
    mkPos (17.458 - 2 / 1000) 78.3974; mkPos (17.458 - 1 / 1000) 78.3974;
    mkPos 17.458 78.3974; mkPos 17.457 78.3974; mkPos 17.455 78.3974;
    mkPos 17.453 78.3974; mkPos 17.452 78.3974 ].
Proof. unfold gpsPath_north. repeat f_equal; lra. Qed.

Ltac walk_outside :=
  rewrite evaluations_cons, evaluate_single by reflexivity;
  change (status_of ∅ (a_id north_assignment)) with Pending;
  rewrite inside_north_south by lra;
  rewrite (proj2 (Rle_bool_false _ _)) by (pose proof PI2_3_2; lra);
  f_equal.

Lemma north_walk_evaluations :
  evaluations north_registry [north_assignment] 7 0 ∅ 0 gpsPath_north =
  [[]; []; []; []; []; [1%Z]; []; []; []; []; []].
Proof.
  rewrite north_walk_positions.
  do 5 walk_outside.
  rewrite evaluations_cons, evaluate_single by reflexivity.
  change (status_of ∅ (a_id north_assignment)) with Pending.
  rewrite inside_north_south by lra.
  rewrite (proj2 (Rle_bool_true _ _)) by (pose proof PI_4; lra).
  f_equal.
Qed.

(** Claim C9: on valid coordinate pairs [distanceMeters p p = 0] and
    [distanceMeters] is symmetric (on every input, failures included); it
    fails with [InvalidCoordinate] exactly when an input lies outside
    lat in [-90,90], lng in [-180,180]. Being a function of its arguments
    only, it is deterministic and pure. *)
Theorem distanceMeters_refl_sym_ranges :
  (forall p, in_range p -> distanceMeters p p = Ok 0) /\
  (forall p q, distanceMeters p q = distanceMeters q p) /\
  (forall p q, distanceMeters p q = Err InvalidCoordinate <-> ~ (in_range p /\ in_range q)).
Proof.
  split; [|split].
  - intros p Hp. unfold distanceMeters. apply valid_coord_spec in Hp. rewrite Hp.
    simpl. rewrite haversine_refl. reflexivity.
  - intros p q. unfold distanceMeters. rewrite andb_comm, haversine_sym. reflexivity.
  - intros p q. unfold distanceMeters. rewrite <- !valid_coord_spec.
    destruct (valid_coord p), (valid_coord q); simpl; split; intros H;
      try (intros [H1 H2]; discriminate); try discriminate; try reflexivity.
    exfalso; apply H; split; reflexivity.
Qed.

Lemma distanceMeters_refl_sym_ranges_witness :
  in_range (mkPos 17.452 78.3974) /\
  distanceMeters (mkPos 17.452 78.3974) (mkPos 17.452 78.3974) = Ok 0.
Proof.
  assert (H : in_range (mkPos 17.452 78.3974)) by (unfold in_range; simpl; lra).
  split; [exact H|].
  exact (proj1 distanceMeters_refl_sym_ranges _ H).
Defined.

(** Claim C8: for a circle and a point with valid coordinates, [contains]
    answers whether [distanceMeters(center, point) <= radius], boundary
    included; on the North route of the simulator, Geofence North (radius
    150 m) is reported entered exactly once, at the step "North 5", the
    first step whose distance to the center is at most 150 m. *)
Theorem contains_inclusive_and_north_walk :
  (forall c p, in_range (center c) -> in_range p ->
     contains c p = Ok (Rle_bool (haversine (center c) p) (radius c)) /\
     (contains c p = Ok true <-> haversine (center c) p <= radius c)) /\
  evaluations north_registry [north_assignment] 7 0 ∅ 0 gpsPath_north =
    [[]; []; []; []; []; [1%Z]; []; []; []; []; []] /\
  Forall (fun p => 150 < haversine (center (g_circle north)) p) (take 5 gpsPath_north) /\
  haversine (center (g_circle north)) (mkPos 17.457 78.3974) <= 150.
Proof.
  split; [|split; [|split]].
  - intros c p Hc Hp. unfold contains, distanceMeters.
    apply valid_coord_spec in Hc, Hp. rewrite Hc, Hp. simpl.
    split; [reflexivity|]. rewrite <- Rle_bool_true. split; congruence.
  - apply north_walk_evaluations.
  - rewrite north_walk_positions. simpl.
    pose proof PI2_3_2.
    repeat constructor; rewrite north_distance_south; lra.
  - replace (mkPos 17.457 78.3974) with (mkPos (17.458 - 1 / 1000) 78.3974)
      by (f_equal; lra).
    rewrite north_distance_south by lra. pose proof PI_4. lra.
Qed.

Lemma contains_inclusive_and_north_walk_witness :
  in_range (mkPos 17.458 78.3974) /\ in_range (mkPos 17.457 78.3974) /\
  contains (mkCircle (mkPos 17.458 78.3974) 150) (mkPos 17.457 78.3974) = Ok true.
Proof.
  assert (Hc : in_range (mkPos 17.458 78.3974)) by (unfold in_range; simpl; lra).
  assert (Hp : in_range (mkPos 17.457 78.3974)) by (unfold in_range; simpl; lra).
  split; [exact Hc|split; [exact Hp|]].
  destruct (proj1 contains_inclusive_and_north_walk (mkCircle (mkPos 17.458 78.3974) 150)
           (mkPos 17.457 78.3974) Hc Hp) as [_ Hiff].
  apply Hiff. exact (proj2 (proj2 (proj2 contains_inclusive_and_north_walk))).
Defined.

End GeoClaims.

Module IngestorFacts.
Import GeoMath Engine Ingestor GeoMathFacts.

Local Open Scope Z_scope.

(** The update of the ingestor, with its monadic plumbing unfolded. *)
Lemma update_eq sid p ts e :
  update sid p ts e =
  match active_session e sid with
  | Err x => (Err x, e, [])
  | Ok s =>
      if valid_coord p then
        match recordMovement e sid p ts with
        | Err x => (Err x, e, [])
        | Ok (Rejected, e1) => (Ok stale_result, e1, [CallRecordMovement Rejected])
        | Ok (Moved d, e1) =>
            let '(l, e2) := evaluate e1 (s_emp s) p (date_of ts) ts in
            let '(b, e3) := maybeAppend e2 sid p ts in
            (Ok (mkUpdateResult true b l), e3,
             [CallRecordMovement (Moved d); CallEvaluate l; CallMaybeAppend b])
        end
      else (Err InvalidCoordinate, e, [])
  end.
Proof.
  unfold update, bind, get, lift, recordMovement_m, evaluate_m, maybeAppend_m, ret.
  destruct (active_session e sid) as [s|x]; simpl; [|reflexivity].
  destruct (valid_coord p); simpl; [|reflexivity].
  destruct (recordMovement e sid p ts) as [[[|d] e1]|x]; simpl; try reflexivity.
  destruct (evaluate e1 (s_emp s) p (date_of ts) ts) as [l e2]; simpl.
  destruct (maybeAppend e2 sid p ts) as [b e3]; reflexivity.
Qed.

Lemma active_session_ok e sid s :
  active_session e sid = Ok s <-> sessions e !! sid = Some s /\ s_state s = Active.
Proof.
  unfold active_session. destruct (sessions e !! sid) as [s'|]; [|split; intros H; try discriminate; destruct H; discriminate].
  destruct (s_state s') eqn:Hs; split; intros H; try discriminate.
  - injection H as <-. auto.
  - destruct H as [H1 H2]. injection H1 as <-. reflexivity.
  - destruct H as [H1 H2]. injection H1 as <-. congruence.
Qed.

Lemma recordMovement_rejected e sid p ts e1 :
  recordMovement e sid p ts = Ok (Rejected, e1) -> e1 = e.
Proof.
  unfold recordMovement.
  destruct (sessions e !! sid) as [s|]; [|discriminate].
  destruct (s_state s); [|discriminate].
  destruct (ts <=? s_last_ts s); [congruence|].
  destruct (distanceMeters (s_last_pos s) p); discriminate.
Qed.

Lemma recordMovement_moved e sid p ts d e1 :
  recordMovement e sid p ts = Ok (Moved d, e1) ->
  exists s, sessions e !! sid = Some s /\ s_state s = Active /\ s_last_ts s < ts /\
    distanceMeters (s_last_pos s) p = Ok d /\
    e1 = set_sessions (insert sid (moved s p ts d)) e.
Proof.
  unfold recordMovement.
  destruct (sessions e !! sid) as [s|] eqn:Hs; [|discriminate].
  destruct (s_state s) eqn:Hst; [|discriminate].
  destruct (ts <=? s_last_ts s) eqn:Hts; [discriminate|].
  apply Z.leb_gt in Hts.
  destruct (distanceMeters (s_last_pos s) p) as [d'|] eqn:Hd; [|discriminate].
  intros H. injection H as <- <-. exists s. auto 6.
Qed.

Lemma recordMovement_stale e sid s p ts :
  sessions e !! sid = Some s -> s_state s = Active -> ts <= s_last_ts s ->
  recordMovement e sid p ts = Ok (Rejected, e).
Proof.
  intros Hs Ha Hts. unfold recordMovement. rewrite Hs, Ha.
  apply Z.leb_le in Hts. rewrite Hts. reflexivity.
Qed.

Lemma evaluate_fields e emp p date ts :
  let e' := snd (evaluate e emp p date ts) in
  sessions e' = sessions e /\ active e' = active e /\ polylines e' = polylines e /\
  next_sid e' = next_sid e.
Proof.
  unfold evaluate. destruct (evaluate_loop _ _ _ _ _ _ _). simpl. auto.
Qed.

Lemma maybeAppend_fields e sid p ts :
  let e' := snd (maybeAppend e sid p ts) in
  sessions e' = sessions e /\ active e' = active e /\ statuses e' = statuses e /\
  next_sid e' = next_sid e.
Proof.
  unfold maybeAppend. destruct (existsb _ _); simpl; auto.
Qed.

End IngestorFacts.

Module IngestorClaims.
Import GeoMath Engine Ingestor GeoMathFacts IngestorFacts.

Local Open Scope Z_scope.

(** The session updated by an accepted update keeps it through the geofence
    check and the polyline append. *)
Lemma update_moved_session e sid p ts d e1 s l e2 b e3 :
  recordMovement e sid p ts = Ok (Moved d, e1) ->
  evaluate e1 (s_emp s) p (date_of ts) ts = (l, e2) ->
  maybeAppend e2 sid p ts = (b, e3) ->
  exists s0, sessions e !! sid = Some s0 /\ s_state s0 = Active /\
    sessions e3 = <[sid := moved s0 p ts d]> (sessions e).
Proof.
  intros Hr Hev Hma.
  destruct (recordMovement_moved _ _ _ _ _ _ Hr) as (s0 & Hs0 & Ha & _ & _ & ->).
  exists s0. split; [exact Hs0|split; [exact Ha|]].
  pose proof (maybeAppend_fields e2 sid p ts) as (F1 & _). rewrite Hma in F1. simpl in F1.
  pose proof (evaluate_fields (set_sessions (insert sid (moved s0 p ts d)) e)
                (s_emp s) p (date_of ts) ts) as (G1 & _).
  rewrite Hev in G1. simpl in G1. rewrite F1, G1. reflexivity.
Qed.

(** Claim C2: applying the same update (same session id and timestamp) a
    second time changes nothing (neither the distance nor the polyline, nor
    any other part of the engine) and, when the first was answered without
    error, is answered with the non-error stale result; [recordMovement]
    rejects an update whose timestamp is not after the session's last-seen
    timestamp, reporting a zero delta and leaving the engine unchanged. *)
Theorem update_same_twice_noop :
  (forall sid p ts e,
     let '(r1, e1, _) := update sid p ts e in
     let '(r2, e2, _) := update sid p ts e1 in
     e2 = e1 /\
     match r1 with Ok _ => r2 = Ok stale_result | Err x => r2 = Err x end) /\
  (forall e sid s p ts,
     sessions e !! sid = Some s -> s_state s = Active -> ts <= s_last_ts s ->
     recordMovement e sid p ts = Ok (Rejected, e) /\ delta_of Rejected = 0%R).
Proof.
  split.
  - intros sid p ts e. rewrite (update_eq sid p ts e).
    destruct (active_session e sid) as [s|x] eqn:Has.
    2:{ rewrite update_eq, Has. auto. }
    destruct (valid_coord p) eqn:Hv.
    2:{ rewrite update_eq, Has, Hv. auto. }
    destruct (recordMovement e sid p ts) as [[[|d] e1]|x] eqn:Hr.
    + pose proof (recordMovement_rejected _ _ _ _ _ Hr) as ->.
      rewrite update_eq, Has, Hv, Hr. auto.
    + destruct (evaluate e1 (s_emp s) p (date_of ts) ts) as [l e2] eqn:Hev.
      destruct (maybeAppend e2 sid p ts) as [b e3] eqn:Hma.
      destruct (update_moved_session _ _ _ _ _ _ _ _ _ _ _ Hr Hev Hma) as (s0 & _ & Ha & Hse).
      assert (Hs3 : sessions e3 !! sid = Some (moved s0 p ts d)).
      { rewrite Hse. apply lookup_insert_eq. }
      assert (Has3 : active_session e3 sid = Ok (moved s0 p ts d)).
      { apply active_session_ok. split; [exact Hs3|exact Ha]. }
      rewrite update_eq, Has3, Hv.
      rewrite (recordMovement_stale e3 sid (moved s0 p ts d) p ts Hs3 Ha) by (simpl; lia).
      auto.
    + rewrite update_eq, Has, Hv, Hr. auto.
  - intros e sid s p ts Hs Ha Hts. split; [|reflexivity].
    apply (recordMovement_stale e sid s p ts Hs Ha Hts).
Qed.

Lemma update_same_twice_noop_witness :
  recordMovement
    (set_sessions (insert 0 (mkSession 7 Active 0 (mkPos 0 0) (mkPos 0 0) 30 0%R None None)) (init ∅ []))
    0 (mkPos 1 1) 20 =
  Ok (Rejected,
      set_sessions (insert 0 (mkSession 7 Active 0 (mkPos 0 0) (mkPos 0 0) 30 0%R None None)) (init ∅ []))
  /\ delta_of Rejected = 0%R.
Proof.
  apply (proj2 update_same_twice_noop
           (set_sessions (insert 0 (mkSession 7 Active 0 (mkPos 0 0) (mkPos 0 0) 30 0%R None None))
              (init ∅ []))
           0 (mkSession 7 Active 0 (mkPos 0 0) (mkPos 0 0) 30 0%R None None)
           (mkPos 1 1) 20); [reflexivity | reflexivity | simpl; lia].
Defined.

(** Claim C4: in every update, the geofence check runs exactly when
    [recordMovement] accepted the update: an accepted update calls
    [recordMovement], then [evaluate], then [maybeAppend], whatever the
    latter decides; a stale-rejected update stops after [recordMovement],
    with neither a geofence check nor a polyline append; an update that
    fails calls neither. *)
Theorem update_evaluates_iff_accepted :
  forall sid p ts e,
    let '(r, e', calls) := update sid p ts e in
    (calls = [] /\ (exists x, r = Err x) /\ e' = e) \/
    (recordMovement e sid p ts = Ok (Rejected, e) /\
     calls = [CallRecordMovement Rejected] /\ r = Ok stale_result /\ e' = e) \/
    (exists d e1 l b,
       recordMovement e sid p ts = Ok (Moved d, e1) /\
       calls = [CallRecordMovement (Moved d); CallEvaluate l; CallMaybeAppend b] /\
       r = Ok (mkUpdateResult true b l)).
Proof.
  intros sid p ts e. rewrite update_eq.
  destruct (active_session e sid) as [s|x]; [|left; eauto].
  destruct (valid_coord p); [|left; eauto].
  destruct (recordMovement e sid p ts) as [[[|d] e1]|x] eqn:Hr; [| |left; eauto].
  - pose proof (recordMovement_rejected _ _ _ _ _ Hr) as ->. right; left. auto.
  - destruct (evaluate e1 (s_emp s) p (date_of ts) ts) as [l e2].
    destruct (maybeAppend e2 sid p ts) as [b e3].
    right; right. exists d, e1, l, b. auto.
Qed.

End IngestorClaims.

Module StatusFacts.
Import GeoMath Engine Ingestor IngestorFacts.

Local Open Scope Z_scope.

(** Entered statuses, with their timestamps, survive from [st] to [st']. *)
Definition entered_kept (st st' : gmap Z GeofenceStatus) : Prop :=
  forall aid t, status_of st aid = Entered t -> status_of st' aid = Entered t.

Lemma entered_kept_refl st : entered_kept st st.
Proof. intros aid t H. exact H. Qed.

Lemma entered_kept_trans st1 st2 st3 :
  entered_kept st1 st2 -> entered_kept st2 st3 -> entered_kept st1 st3.
Proof. intros H1 H2 aid t H. auto. Qed.

Lemma status_of_insert_eq st aid v : status_of (<[aid := v]> st) aid = v.
Proof. unfold status_of. rewrite lookup_insert_eq. reflexivity. Qed.

Lemma status_of_insert_ne st aid aid' v :
  aid <> aid' -> status_of (<[aid := v]> st) aid' = status_of st aid'.
Proof. intros H. unfold status_of. rewrite lookup_insert_ne by exact H. reflexivity. Qed.

Lemma pending_before st st' aid :
  entered_kept st st' -> status_of st' aid = Pending -> status_of st aid = Pending.
Proof.
  intros Hk Hp. destruct (status_of st aid) as [|t] eqn:E; [reflexivity|].
  apply Hk in E. congruence.
Qed.

Lemma evaluate_loop_spec gs emp p date ts asgs st :
  let '(l, st') := evaluate_loop gs emp p date ts asgs st in
  entered_kept st st' /\ NoDup l /\
  (forall aid, In aid l -> status_of st aid = Pending /\ status_of st' aid = Entered ts).
Proof.
  revert st. induction asgs as [|a rest IH]; intros st; simpl.
  { split; [apply entered_kept_refl|split; [constructor|intros aid []]]. }
  destruct ((a_emp a =? emp) && (a_date a =? date)); [|apply IH].
  destruct (status_of st (a_id a)) as [|t] eqn:Hst; [|apply IH].
  destruct (inside gs a p); [|apply IH].
  specialize (IH (<[a_id a := Entered ts]> st)).
  destruct (evaluate_loop gs emp p date ts rest (<[a_id a := Entered ts]> st)) as [l st'].
  destruct IH as (Hk & Hnd & Hin).
  assert (Hk0 : entered_kept st (<[a_id a := Entered ts]> st)).
  { intros aid t Ht. destruct (Z.eq_dec (a_id a) aid) as [<-|Hne].
    - congruence.
    - rewrite status_of_insert_ne by exact Hne. exact Ht. }
  split; [|split].
  - eapply entered_kept_trans; eassumption.
  - constructor; [|exact Hnd].
    intros Hin'. apply list_elem_of_In in Hin'. destruct (Hin _ Hin') as [Hp _].
    rewrite status_of_insert_eq in Hp. discriminate.
  - intros aid [<-|Hin'].
    + split; [exact Hst|]. apply Hk. apply status_of_insert_eq.
    + destruct (Hin _ Hin') as [Hp He]. split; [|exact He].
      destruct (Z.eq_dec (a_id a) aid) as [<-|Hne].
      * rewrite status_of_insert_eq in Hp. discriminate.
      * rewrite status_of_insert_ne in Hp by exact Hne. exact Hp.
Qed.

(** What one operation does to the geofence statuses. *)
Lemma step_statuses e op :
  let '(e', l) := step e op in
  entered_kept (statuses e) (statuses e') /\ NoDup l /\
  (forall aid, In aid l ->
     status_of (statuses e) aid = Pending /\ exists t, status_of (statuses e') aid = Entered t).
Proof.
  destruct op as [emp p now|sid p ts|sid p now]; simpl.
  - destruct (startSession e emp p now) as [[sid e']|x] eqn:Hs.
    + split; [|split; [constructor|intros aid []]].
      unfold startSession in Hs. destruct (active e !! emp); [discriminate|].
      injection Hs as _ <-.
      pose proof (maybeAppend_fields
        (mkEngine (<[next_sid e := mkSession emp Active now p p now 0%R None None]> (sessions e))
           (<[emp := next_sid e]> (active e)) (polylines e) (statuses e) (geofences e)
           (assignments e) (next_sid e + 1)) (next_sid e) p now) as (_ & _ & F & _).
      simpl in F. rewrite F. apply entered_kept_refl.
    + split; [apply entered_kept_refl|split; [constructor|intros aid []]].
  - rewrite update_eq.
    destruct (active_session e sid) as [s|x];
      [|split; [apply entered_kept_refl|split; [constructor|intros aid []]]].
    destruct (valid_coord p);
      [|split; [apply entered_kept_refl|split; [constructor|intros aid []]]].
    destruct (recordMovement e sid p ts) as [[[|d] e1]|x] eqn:Hr;
      [| |split; [apply entered_kept_refl|split; [constructor|intros aid []]]].
    + pose proof (recordMovement_rejected _ _ _ _ _ Hr) as ->.
      split; [apply entered_kept_refl|split; [constructor|intros aid []]].
    + destruct (recordMovement_moved _ _ _ _ _ _ Hr) as (s0 & _ & _ & _ & _ & ->).
      unfold evaluate. simpl.
      pose proof (evaluate_loop_spec (geofences e) (s_emp s) p (date_of ts) ts
                    (assignments e) (statuses e)) as Hspec.
      destruct (evaluate_loop _ _ _ _ _ _ _) as [l st'].
      destruct (maybeAppend _ sid p ts) as [b e3] eqn:Hma.
      pose proof (maybeAppend_fields
        (set_statuses st' (set_sessions (insert sid (moved s0 p ts d)) e)) sid p ts)
        as (_ & _ & F & _).
      rewrite Hma in F. simpl in F |- *. rewrite F.
      destruct Hspec as (Hk & Hnd & Hin). split; [exact Hk|split; [exact Hnd|]].
      intros aid Ha. destruct (Hin _ Ha) as [H1 H2]. eauto.
  - destruct (closeSession e sid p now) as [[s e']|x] eqn:Hc.
    + split; [|split; [constructor|intros aid []]].
      unfold closeSession in Hc. destruct (sessions e !! sid); [|discriminate].
      destruct (s_state _); [|discriminate]. injection Hc as _ <-.
      apply entered_kept_refl.
    + split; [apply entered_kept_refl|split; [constructor|intros aid []]].
Qed.

(** Claim C1: along any sequence of engine operations (check-ins, location
    updates, checkouts), an Entered status keeps its entered timestamp and
    never returns to Pending, and every assignment is reported newly entered
    at most once, only if it was Pending before the sequence, and is
    Entered after it; this holds whatever the positions, in particular when
    they enter, leave and re-enter a circle. *)
Theorem geofence_entered_at_most_once :
  forall e ops,
    let '(e', l) := run e ops in
    (forall aid t, status_of (statuses e) aid = Entered t ->
                   status_of (statuses e') aid = Entered t) /\
    NoDup l /\
    (forall aid, In aid l ->
       status_of (statuses e) aid = Pending /\
       exists t, status_of (statuses e') aid = Entered t).
Proof.
  intros e ops. revert e. induction ops as [|op rest IH]; intros e; simpl.
  { split; [apply entered_kept_refl|split; [constructor|intros aid []]]. }
  pose proof (step_statuses e op) as Hs.
  destruct (step e op) as [e1 l1].
  specialize (IH e1). destruct (run e1 rest) as [e2 l2].
  destruct Hs as (Hk1 & Hnd1 & Hin1). destruct IH as (Hk2 & Hnd2 & Hin2).
  split; [|split].
  - eapply entered_kept_trans; eassumption.
  - apply NoDup_app. split; [exact Hnd1|split; [|exact Hnd2]].
    intros x Hx1 Hx2. apply list_elem_of_In in Hx1, Hx2.
    destruct (Hin1 _ Hx1) as [_ [t Ht]]. destruct (Hin2 _ Hx2) as [Hp _].
    congruence.
  - intros aid Ha. apply in_app_or in Ha as [Ha|Ha].
    + destruct (Hin1 _ Ha) as [Hp [t Ht]]. split; [exact Hp|]. eauto.
    + destruct (Hin2 _ Ha) as [Hp He]. split; [|exact He].
      eapply pending_before; eassumption.
Qed.

Lemma geofence_entered_at_most_once_witness :
  status_of (statuses (fst (run (set_statuses {[1 := Entered 5]} (init ∅ [])) []))) 1 = Entered 5.
Proof.
  pose proof (geofence_entered_at_most_once (set_statuses {[1 := Entered 5]} (init ∅ [])) [])
    as H.
  change (run (set_statuses {[1 := Entered 5]} (init ∅ [])) [])
    with (set_statuses {[1 := Entered 5]} (init ∅ []), @nil Z) in H |- *.
  destruct H as (Hk & _ & _). apply Hk. reflexivity.
Defined.

End StatusFacts.

Module DistanceFacts.
Import GeoMath Engine Ingestor GeoMathFacts IngestorFacts IngestorClaims.

Local Open Scope Z_scope.

Lemma update_accepted e sid s p ts :
  sessions e !! sid = Some s -> s_state s = Active -> s_last_ts s < ts ->
  in_range (s_last_pos s) -> in_range p ->
  exists b l e' calls,
    update sid p ts e = (Ok (mkUpdateResult true b l), e', calls) /\
    sessions e' !! sid = Some (moved s p ts (haversine (s_last_pos s) p)).
Proof.
  intros Hs Ha Hts Hl Hp.
  assert (Hr : recordMovement e sid p ts =
               Ok (Moved (haversine (s_last_pos s) p),
                   set_sessions (insert sid (moved s p ts (haversine (s_last_pos s) p))) e)).
  { unfold recordMovement. rewrite Hs, Ha.
    replace (ts <=? s_last_ts s) with false by (symmetry; apply Z.leb_gt; lia).
    unfold distanceMeters.
    apply valid_coord_spec in Hl, Hp. rewrite Hl, Hp. reflexivity. }
  rewrite update_eq.
  replace (active_session e sid) with (Ok (A := Session) s)
    by (symmetry; apply active_session_ok; auto).
  apply valid_coord_spec in Hp as Hpv. rewrite Hpv, Hr.
  destruct (evaluate _ (s_emp s) p (date_of ts) ts) as [l e2] eqn:Hev.
  destruct (maybeAppend e2 sid p ts) as [b e3] eqn:Hma.
  destruct (update_moved_session _ _ _ _ _ _ _ _ _ _ _ Hr Hev Hma) as (s0 & Hs0 & _ & Hse).
  rewrite Hs in Hs0. injection Hs0 as <-.
  exists b, l, e3, [CallRecordMovement (Moved (haversine (s_last_pos s) p));
                    CallEvaluate l; CallMaybeAppend b].
  split; [reflexivity|]. rewrite Hse. apply lookup_insert_eq.
Qed.

Lemma feed_spec sid ups :
  forall e s,
    sessions e !! sid = Some s -> s_state s = Active -> in_range (s_last_pos s) ->
    Forall (fun u => in_range (fst u)) ups ->
    Sorted Z.lt (s_last_ts s :: map snd ups) ->
    Forall (fun x => exists b l, fst x = Ok (mkUpdateResult true b l)) (fst (feed e sid ups)) /\
    map snd (fst (feed e sid ups)) = running (s_distance s) (s_last_pos s) (map fst ups).
Proof.
  induction ups as [|[p ts] rest IH]; intros e s Hs Ha Hl Hin Hsort; simpl.
  { split; [constructor|reflexivity]. }
  inversion Hsort as [|x l' Hsort' Hhd]; subst.
  inversion Hhd; subst. inversion Hin as [|u l'' Hp Hin']; subst. simpl in Hp.
  destruct (update_accepted e sid s p ts Hs Ha ltac:(assumption) Hl Hp)
    as (b & l & e' & calls & Hu & Hs').
  rewrite Hu.
  specialize (IH e' (moved s p ts (haversine (s_last_pos s) p)) Hs' Ha Hp Hin' Hsort').
  destruct (feed e' sid rest) as [tr e2]. simpl in IH |- *.
  destruct IH as [Hacc Hrun]. split.
  - constructor; [simpl; eauto|exact Hacc].
  - unfold distance_of. rewrite Hs'. simpl. f_equal. exact Hrun.
Qed.

Lemma running_path_length d0 p ps :
  forall k d, running d0 p ps !! k = Some d ->
  d = (d0 + path_length (p :: take (S k) ps))%R.
Proof.
  revert d0 p. induction ps as [|q rest IH]; intros d0 p k d H; [discriminate|].
  destruct k as [|k]; simpl in H.
  - injection H as <-. simpl. ring.
  - apply IH in H. rewrite H. simpl take. cbn [path_length]. ring.
Qed.

Lemma running_sorted d0 p ps : Sorted Rle (d0 :: running d0 p ps).
Proof.
  revert d0 p. induction ps as [|q rest IH]; intros d0 p; simpl.
  - repeat constructor.
  - constructor; [apply IH|]. constructor.
    pose proof (haversine_nonneg p q). lra.
Qed.

Lemma startSession_ok e emp p now sid e1 :
  startSession e emp p now = Ok (sid, e1) ->
  active e !! emp = None /\ sid = next_sid e /\
  sessions e1 = <[sid := mkSession emp Active now p p now 0%R None None]> (sessions e).
Proof.
  unfold startSession. destruct (active e !! emp); [discriminate|].
  intros H. injection H as <- <-. split; [reflexivity|split; [reflexivity|]].
  match goal with
  | |- sessions (snd (maybeAppend ?E _ _ _)) = _ =>
      exact (proj1 (maybeAppend_fields E (next_sid e) p now))
  end.
Qed.

(** Claim C3: a session started at [p0] at time [now] that then receives
    updates with valid coordinates and strictly increasing timestamps
    (after [now]) accepts each of them; its cumulative distance starts at
    0, after the [k]-th update it is the sum of the haversine distances
    between consecutive positions from [p0], and it never decreases. *)
Theorem distance_is_sum_of_haversine :
  forall e emp p0 now sid e1 ups,
    startSession e emp p0 now = Ok (sid, e1) ->
    in_range p0 ->
    Forall (fun u => in_range (fst u)) ups ->
    Sorted Z.lt (now :: map snd ups) ->
    let tr := fst (feed e1 sid ups) in
    distance_of e1 sid = 0%R /\
    Forall (fun x => exists b l, fst x = Ok (mkUpdateResult true b l)) tr /\
    (forall k d, map snd tr !! k = Some d ->
       d = path_length (p0 :: take (S k) (map fst ups))) /\
    Sorted Rle (0%R :: map snd tr).
Proof.
  intros e emp p0 now sid e1 ups Hst Hp0 Hin Hsort tr.
  destruct (startSession_ok _ _ _ _ _ _ Hst) as (_ & _ & Hse).
  assert (Hs : sessions e1 !! sid = Some (mkSession emp Active now p0 p0 now 0%R None None)).
  { rewrite Hse. apply lookup_insert_eq. }
  destruct (feed_spec sid ups e1 _ Hs eq_refl Hp0 Hin Hsort) as [Hacc Hrun].
  simpl in Hrun. subst tr.
  split; [unfold distance_of; rewrite Hs; reflexivity|].
  split; [exact Hacc|]. rewrite Hrun. split.
  - intros k d Hk. apply running_path_length in Hk. rewrite Hk. ring.
  - apply running_sorted.
Qed.

Lemma distance_is_sum_of_haversine_witness :
  match startSession (init ∅ []) 7 (mkPos 0 0) 0 with
  | Ok (sid, e1) =>
      Sorted Rle (0%R :: map snd (fst (feed e1 sid [(mkPos 0 1, 10); (mkPos 1 1, 20)])))
  | Err _ => False
  end.
Proof.
  destruct (startSession (init ∅ []) 7 (mkPos 0 0) 0) as [[sid e1]|x] eqn:H.
  - refine (proj2 (proj2 (proj2 (distance_is_sum_of_haversine _ _ _ _ _ _ _ H _ _ _)))).
    + unfold in_range; simpl; lra.
    + repeat constructor; unfold in_range; simpl; lra.
    + repeat constructor; simpl; lia.
  - discriminate H.
Defined.

End DistanceFacts.

Module InvariantFacts.
Import GeoMath Engine Ingestor Invariants IngestorFacts IngestorClaims DistanceFacts.

Local Open Scope Z_scope.

Ltac lookup_simpl :=
  repeat first
    [ rewrite lookup_insert_eq
    | rewrite lookup_insert_ne by congruence
    | rewrite lookup_delete_eq
    | rewrite lookup_delete_ne by congruence ].

Lemma spaced_app_single pts q :
  spaced pts -> (forall x, In x pts -> pp_ts x + POLYLINE_MIN_INTERVAL <= pp_ts q) ->
  spaced (pts ++ [q]).
Proof.
  induction pts as [|x rest IH]; intros Hs Hq; simpl; [exact I|].
  destruct rest as [|y rest']; simpl.
  - split; [apply Hq; left; reflexivity|exact I].
  - destruct Hs as [Hxy Hs]. split; [exact Hxy|].
    apply IH; [exact Hs|]. intros z Hz. apply Hq. right. exact Hz.
Qed.

Lemma spaced_lookup pts :
  spaced pts -> forall i p q, pts !! i = Some p -> pts !! S i = Some q ->
  pp_ts p + POLYLINE_MIN_INTERVAL <= pp_ts q.
Proof.
  induction pts as [|x rest IH]; intros Hs i p q Hp Hq; [discriminate|].
  destruct rest as [|y rest']; [destruct i; discriminate|].
  destruct Hs as [Hxy Hs]. destruct i as [|i].
  - simpl in Hp, Hq. injection Hp as <-. injection Hq as <-. exact Hxy.
  - apply (IH Hs i); assumption.
Qed.

Lemma maybeAppend_cases e sid p ts :
  (existsb (recent ts) (pointsFor e sid) = true /\ maybeAppend e sid p ts = (false, e)) \/
  (existsb (recent ts) (pointsFor e sid) = false /\
   maybeAppend e sid p ts = (true, append_point e sid p ts)).
Proof.
  unfold maybeAppend. destruct (existsb (recent ts) (pointsFor e sid)); auto.
Qed.

Lemma no_recent_spaced pts ts :
  existsb (recent ts) pts = false -> Forall (fun q => pp_ts q <= ts) pts ->
  forall x, In x pts -> pp_ts x + POLYLINE_MIN_INTERVAL <= ts.
Proof.
  intros Hn Hle x Hx.
  assert (Hr : recent ts x = false).
  { destruct (recent ts x) eqn:E; [|reflexivity].
    rewrite <- Hn. symmetry. apply existsb_exists. eauto. }
  rewrite List.Forall_forall in Hle. specialize (Hle x Hx).
  unfold recent in Hr. apply andb_false_iff in Hr as [Hr|Hr].
  - apply Z.ltb_ge in Hr. unfold POLYLINE_MIN_INTERVAL in *. lia.
  - apply Z.leb_gt in Hr. lia.
Qed.

Lemma Inv_init gs asgs : Inv (init gs asgs).
Proof.
  split; simpl; intros *; rewrite ?lookup_empty; try discriminate; auto.
Qed.

Lemma has_session_below e sid s :
  Inv e -> sessions e !! sid = Some s -> sid < next_sid e.
Proof.
  intros Hi Hs. destruct (Z_lt_le_dec sid (next_sid e)) as [H|H]; [exact H|].
  rewrite (inv_fresh _ Hi sid H) in Hs. discriminate.
Qed.

Lemma Inv_same_core e e' :
  sessions e' = sessions e -> active e' = active e -> polylines e' = polylines e ->
  next_sid e' = next_sid e -> Inv e -> Inv e'.
Proof.
  intros Hs Ha Hp Hn Hi.
  destruct Hi as [I1 I2 I3 I4 I5 I6]. unfold pointsFor in *.
  split; unfold pointsFor; rewrite ?Hs, ?Ha, ?Hp, ?Hn; assumption.
Qed.

Lemma Inv_moved e sid s p ts d :
  Inv e -> sessions e !! sid = Some s -> s_state s = Active -> s_last_ts s < ts ->
  Inv (set_sessions (insert sid (moved s p ts d)) e).
Proof.
  intros Hi Hs Ha Hts.
  pose proof (has_session_below _ _ _ Hi Hs) as Hlt.
  destruct Hi as [I1 I2 I3 I4 I5 I6].
  unfold set_sessions; split; simpl.
  - intros x Hx. rewrite lookup_insert_ne by lia. apply I1. exact Hx.
  - intros x Hx. destruct (decide (x = sid)) as [->|Hne].
    + rewrite lookup_insert_eq in Hx. discriminate.
    + rewrite lookup_insert_ne in Hx by congruence. apply I2. exact Hx.
  - intros emp sid' Hsid'. destruct (I3 _ _ Hsid') as (s0 & Hs0 & He & Ha0).
    destruct (decide (sid' = sid)) as [->|Hne].
    + rewrite Hs in Hs0. injection Hs0 as <-.
      exists (moved s p ts d). rewrite lookup_insert_eq. auto.
    + exists s0. rewrite lookup_insert_ne by congruence. auto.
  - intros x s0 Hx Ha0. destruct (decide (x = sid)) as [->|Hne].
    + rewrite lookup_insert_eq in Hx. injection Hx as <-. simpl. apply (I4 _ _ Hs Ha).
    + rewrite lookup_insert_ne in Hx by congruence. apply (I4 _ _ Hx Ha0).
  - intros x s0 Hx Ha0. unfold pointsFor. simpl. fold (pointsFor e x).
    destruct (decide (x = sid)) as [->|Hne].
    + rewrite lookup_insert_eq in Hx. injection Hx as <-. simpl.
      destruct (I5 _ _ Hs Ha) as [Hsp Hle]. split; [exact Hsp|].
      eapply Forall_impl; [exact Hle|]. intros q Hq. simpl in Hq. lia.
    + rewrite lookup_insert_ne in Hx by congruence. apply (I5 _ _ Hx Ha0).
  - intros x s0 Hx Hc. unfold pointsFor. simpl. fold (pointsFor e x).
    destruct (decide (x = sid)) as [->|Hne].
    + rewrite lookup_insert_eq in Hx. injection Hx as <-. simpl in Hc. congruence.
    + rewrite lookup_insert_ne in Hx by congruence. apply (I6 _ _ Hx Hc).
Qed.

Lemma pointsFor_append e sid p ts x :
  pointsFor (append_point e sid p ts) x =
  if decide (x = sid)
  then pointsFor e sid ++ [mkPoint sid (length (pointsFor e sid)) p ts]
  else pointsFor e x.
Proof.
  unfold append_point, set_polylines. unfold pointsFor at 1. simpl.
  destruct (decide (x = sid)) as [->|Hne].
  - rewrite lookup_insert_eq. reflexivity.
  - rewrite lookup_insert_ne by congruence. reflexivity.
Qed.

Lemma Inv_maybeAppend e sid s p ts :
  Inv e -> sessions e !! sid = Some s -> s_state s = Active -> s_last_ts s = ts ->
  Inv (snd (maybeAppend e sid p ts)).
Proof.
  intros Hi Hs Ha Hts.
  destruct (maybeAppend_cases e sid p ts) as [[_ ->]|[Hn ->]]; simpl; [exact Hi|].
  destruct Hi as [I1 I2 I3 I4 I5 I6].
  split; rewrite ?pointsFor_append; try exact I1; try exact I3; try exact I4.
  - intros x Hx. unfold append_point, set_polylines in *. simpl in *.
    destruct (decide (x = sid)) as [->|Hne]; [congruence|].
    rewrite lookup_insert_ne by congruence. apply I2. exact Hx.
  - intros x s0 Hx Ha0. rewrite pointsFor_append.
    destruct (decide (x = sid)) as [->|Hne].
    + simpl in Hx. rewrite Hs in Hx. injection Hx as <-.
      destruct (I5 _ _ Hs Ha) as [Hsp Hle]. split.
      * apply spaced_app_single; [exact Hsp|]. simpl.
        apply (no_recent_spaced _ _ Hn). rewrite <- Hts. exact Hle.
      * apply Forall_app. split; [exact Hle|]. constructor; [simpl; lia|constructor].
    + apply (I5 _ _ Hx Ha0).
  - intros x s0 Hx Hc. rewrite pointsFor_append.
    destruct (decide (x = sid)) as [->|Hne].
    + simpl in Hx. rewrite Hs in Hx. injection Hx as <-. congruence.
    + apply (I6 _ _ Hx Hc).
Qed.

Lemma Inv_start e emp p now sid e' :
  Inv e -> startSession e emp p now = Ok (sid, e') -> Inv e'.
Proof.
  intros Hi Hst. unfold startSession in Hst.
  destruct (active e !! emp) eqn:Hemp; [discriminate|].
  injection Hst as <- <-.
  set (S0 := mkSession emp Active now p p now 0%R None None).
  assert (Hfresh : sessions e !! next_sid e = None) by (apply (inv_fresh _ Hi); lia).
  assert (Hpoly : polylines e !! next_sid e = None) by (apply (inv_polyline_owner _ Hi); exact Hfresh).
  set (E1 := mkEngine (<[next_sid e := S0]> (sessions e)) (<[emp := next_sid e]> (active e))
               (polylines e) (statuses e) (geofences e) (assignments e) (next_sid e + 1)).
  assert (Hs1 : sessions E1 !! next_sid e = Some S0) by (apply lookup_insert_eq).
  assert (Hi1 : Inv E1).
  { destruct Hi as [I1 I2 I3 I4 I5 I6]. split; simpl.
    - intros x Hx. rewrite lookup_insert_ne by lia. apply I1. lia.
    - intros x Hx. destruct (decide (x = next_sid e)) as [->|Hne].
      + rewrite lookup_insert_eq in Hx. discriminate.
      + rewrite lookup_insert_ne in Hx by congruence. apply I2. exact Hx.
    - intros emp' sid' H. destruct (decide (emp' = emp)) as [->|Hne].
      + rewrite lookup_insert_eq in H. injection H as <-.
        exists S0. rewrite lookup_insert_eq. auto.
      + rewrite lookup_insert_ne in H by congruence.
        destruct (I3 _ _ H) as (s0 & Hs0 & He & Ha0).
        assert (sid' <> next_sid e) by congruence.
        exists s0. rewrite lookup_insert_ne by congruence. auto.
    - intros x s0 Hx Ha0. destruct (decide (x = next_sid e)) as [->|Hne].
      + rewrite lookup_insert_eq in Hx. injection Hx as <-. simpl. apply lookup_insert_eq.
      + rewrite lookup_insert_ne in Hx by congruence.
        assert (s_emp s0 <> emp) by (intros E; rewrite <- E, (I4 _ _ Hx Ha0) in Hemp; discriminate).
        rewrite lookup_insert_ne by congruence. apply (I4 _ _ Hx Ha0).
    - intros x s0 Hx Ha0. unfold pointsFor. simpl. fold (pointsFor e x).
      destruct (decide (x = next_sid e)) as [->|Hne].
      + unfold pointsFor. rewrite Hpoly. simpl. split; [exact I|constructor].
      + rewrite lookup_insert_ne in Hx by congruence. apply (I5 _ _ Hx Ha0).
    - intros x s0 Hx Hc. unfold pointsFor. simpl. fold (pointsFor e x).
      destruct (decide (x = next_sid e)) as [->|Hne].
      + rewrite lookup_insert_eq in Hx. injection Hx as <-. discriminate.
      + rewrite lookup_insert_ne in Hx by congruence. apply (I6 _ _ Hx Hc). }
  exact (Inv_maybeAppend E1 (next_sid e) S0 p now Hi1 Hs1 eq_refl eq_refl).
Qed.

Lemma Inv_close e sid pc now s' e' :
  Inv e -> closeSession e sid pc now = Ok (s', e') -> Inv e'.
Proof.
  intros Hi Hc. unfold closeSession in Hc.
  destruct (sessions e !! sid) as [s|] eqn:Hs; [|discriminate].
  destruct (s_state s) eqn:Ha; [|discriminate].
  injection Hc as <- He'.
  pose proof (has_session_below _ _ _ Hi Hs) as Hlt.
  assert (HS : sessions e' = <[sid:=closed s pc now]> (sessions e)) by (rewrite <- He'; reflexivity).
  assert (HA : active e' = delete (s_emp s) (active e)) by (rewrite <- He'; reflexivity).
  assert (HN : next_sid e' = next_sid e) by (rewrite <- He'; reflexivity).
  assert (HP : forall x, pointsFor e' x =
            if decide (x = sid) then pointsFor e sid ++ [mkPoint sid (length (pointsFor e sid)) pc now]
            else pointsFor e x) by (intros x; rewrite <- He'; exact (pointsFor_append _ sid pc now x)).
  assert (HO : forall x, x <> sid -> polylines e' !! x = polylines e !! x).
  { intros x Hne. rewrite <- He'. unfold append_point, set_polylines. simpl.
    rewrite lookup_insert_ne by congruence. reflexivity. }
  clear He'.
  destruct Hi as [I1 I2 I3 I4 I5 I6]. split.
  - intros x Hx. rewrite HS. rewrite lookup_insert_ne by lia. apply I1. lia.
  - intros x Hx. rewrite HS in Hx. destruct (decide (x = sid)) as [->|Hne].
    + rewrite lookup_insert_eq in Hx. discriminate.
    + rewrite lookup_insert_ne in Hx by congruence.
      rewrite HO by exact Hne. apply I2. exact Hx.
  - intros emp' sid' H. rewrite HA in H. rewrite HS.
    destruct (decide (emp' = s_emp s)) as [->|Hne].
    + rewrite lookup_delete_eq in H. discriminate.
    + rewrite lookup_delete_ne in H by congruence.
      destruct (I3 _ _ H) as (s0 & Hs0 & He & Ha0).
      assert (sid' <> sid) by (intros ->; rewrite Hs in Hs0; injection Hs0 as <-; congruence).
      exists s0. rewrite lookup_insert_ne by congruence. auto.
  - intros x s0 Hx Ha0. rewrite HS in Hx. rewrite HA.
    destruct (decide (x = sid)) as [->|Hne].
    + rewrite lookup_insert_eq in Hx. injection Hx as <-. discriminate.
    + rewrite lookup_insert_ne in Hx by congruence.
      assert (s_emp s0 <> s_emp s).
      { intros E. pose proof (I4 _ _ Hx Ha0) as H1. pose proof (I4 _ _ Hs Ha) as H2.
        rewrite E in H1. congruence. }
      rewrite lookup_delete_ne by congruence. apply (I4 _ _ Hx Ha0).
  - intros x s0 Hx Ha0. rewrite HS in Hx. rewrite HP.
    destruct (decide (x = sid)) as [->|Hne].
    + rewrite lookup_insert_eq in Hx. injection Hx as <-. discriminate.
    + rewrite lookup_insert_ne in Hx by congruence. apply (I5 _ _ Hx Ha0).
  - intros x s0 Hx Hc. rewrite HS in Hx. rewrite HP.
    destruct (decide (x = sid)) as [->|Hne].
    + eexists _, _. split; [reflexivity|]. apply (I5 _ _ Hs Ha).
    + rewrite lookup_insert_ne in Hx by congruence. apply (I6 _ _ Hx Hc).
Qed.

Lemma Inv_update e sid p ts r e' calls :
  Inv e -> update sid p ts e = (r, e', calls) -> Inv e'.
Proof.
  intros Hi H. rewrite update_eq in H.
  destruct (active_session e sid) as [s|x]; [|injection H as _ <- _; exact Hi].
  destruct (valid_coord p); [|injection H as _ <- _; exact Hi].
  destruct (recordMovement e sid p ts) as [[[|d] e1]|x] eqn:Hr.
  - injection H as _ <- _. rewrite (recordMovement_rejected _ _ _ _ _ Hr). exact Hi.
  - destruct (evaluate e1 (s_emp s) p (date_of ts) ts) as [l e2] eqn:Hev.
    destruct (maybeAppend e2 sid p ts) as [b e3] eqn:Hma.
    injection H as _ <- _.
    destruct (recordMovement_moved _ _ _ _ _ _ Hr) as (s0 & Hs0 & Ha0 & Hts & _ & He1).
    assert (Hi1 : Inv e1) by (rewrite He1; apply Inv_moved; assumption).
    pose proof (evaluate_fields e1 (s_emp s) p (date_of ts) ts) as (F1 & F2 & F3 & F4).
    rewrite Hev in F1, F2, F3, F4. simpl in F1, F2, F3, F4.
    assert (Hi2 : Inv e2) by (apply (Inv_same_core e1 e2); assumption).
    assert (Hs2 : sessions e2 !! sid = Some (moved s0 p ts d))
      by (rewrite F1, He1; apply lookup_insert_eq).
    change e3 with (snd (b, e3)). rewrite <- Hma.
    apply (Inv_maybeAppend e2 sid (moved s0 p ts d)); auto.
  - injection H as _ <- _. exact Hi.
Qed.

Lemma Inv_step e op : Inv e -> Inv (fst (step e op)).
Proof.
  intros Hi. destruct op as [emp p now|sid p ts|sid p now]; simpl.
  - destruct (startSession e emp p now) as [[sid e']|x] eqn:H; [|exact Hi].
    exact (Inv_start _ _ _ _ _ _ Hi H).
  - destruct (update sid p ts e) as [[r e'] calls] eqn:H. simpl.
    exact (Inv_update _ _ _ _ _ _ _ Hi H).
  - destruct (closeSession e sid p now) as [[s e']|x] eqn:H; [|exact Hi].
    exact (Inv_close _ _ _ _ _ _ Hi H).
Qed.

Lemma reachable_Inv e : reachable e -> Inv e.
Proof.
  induction 1; [apply Inv_init|apply Inv_step; assumption].
Qed.

Lemma reachable_run e ops : reachable e -> reachable (fst (run e ops)).
Proof.
  revert e. induction ops as [|op rest IH]; intros e He; simpl; [exact He|].
  pose proof (reach_step e op He) as He1.
  destruct (step e op) as [e1 l1]. specialize (IH e1 He1).
  destruct (run e1 rest) as [e2 l2]. exact IH.
Qed.

Lemma recent_spec ts q :
  recent ts q = true <-> ts - POLYLINE_MIN_INTERVAL < pp_ts q /\ pp_ts q <= ts.
Proof.
  unfold recent. rewrite andb_true_iff, Z.ltb_lt, Z.leb_le. reflexivity.
Qed.

Lemma step_keeps_closed e op sid s :
  Inv e -> sessions e !! sid = Some s -> s_state s = Closed ->
  sessions (fst (step e op)) !! sid = Some s.
Proof.
  intros Hi Hs Hc.
  pose proof (has_session_below _ _ _ Hi Hs) as Hlt.
  destruct op as [emp p now|sid' p ts|sid' p now]; simpl.
  - destruct (startSession e emp p now) as [[sid' e']|x] eqn:H; [|exact Hs].
    destruct (startSession_ok _ _ _ _ _ _ H) as (_ & -> & HS). simpl.
    rewrite HS, lookup_insert_ne by lia. exact Hs.
  - destruct (update sid' p ts e) as [[r e'] calls] eqn:H. simpl.
    rewrite update_eq in H.
    destruct (active_session e sid') as [s'|x]; [|injection H as _ <- _; exact Hs].
    destruct (valid_coord p); [|injection H as _ <- _; exact Hs].
    destruct (recordMovement e sid' p ts) as [[[|d] e1]|x] eqn:Hr.
    + injection H as _ <- _. rewrite (recordMovement_rejected _ _ _ _ _ Hr). exact Hs.
    + destruct (evaluate e1 (s_emp s') p (date_of ts) ts) as [l e2] eqn:Hev.
      destruct (maybeAppend e2 sid' p ts) as [b e3] eqn:Hma.
      injection H as _ <- _.
      destruct (recordMovement_moved _ _ _ _ _ _ Hr) as (s0 & Hs0 & Ha0 & _ & _ & He1).
      assert (sid' <> sid) by (intros ->; congruence).
      pose proof (maybeAppend_fields e2 sid' p ts) as (G1 & _).
      rewrite Hma in G1. simpl in G1. rewrite G1.
      pose proof (evaluate_fields e1 (s_emp s') p (date_of ts) ts) as (F1 & _).
      rewrite Hev in F1. simpl in F1. rewrite F1, He1. unfold set_sessions. cbn [sessions].
      rewrite lookup_insert_ne by congruence. exact Hs.
    + injection H as _ <- _. exact Hs.
  - destruct (closeSession e sid' p now) as [[s1 e']|x] eqn:H; [|exact Hs]. simpl.
    unfold closeSession in H.
    destruct (sessions e !! sid') as [s0|] eqn:Hs0; [|discriminate].
    destruct (s_state s0) eqn:Ha0; [|discriminate].
    injection H as _ <-.
    assert (sid' <> sid) by (intros ->; congruence).
    unfold append_point, set_polylines, set_active, set_sessions. cbn [sessions].
    rewrite lookup_insert_ne by congruence. exact Hs.
Qed.

Lemma run_keeps_closed e ops sid s :
  reachable e -> sessions e !! sid = Some s -> s_state s = Closed ->
  sessions (fst (run e ops)) !! sid = Some s.
Proof.
  revert e. induction ops as [|op rest IH]; intros e He Hs Hc; simpl; [exact Hs|].
  pose proof (reach_step e op He) as He1.
  pose proof (step_keeps_closed e op sid s (reachable_Inv _ He) Hs Hc) as Hs1.
  destruct (step e op) as [e1 l1]. simpl in He1, Hs1.
  specialize (IH e1 He1 Hs1 Hc).
  destruct (run e1 rest) as [e2 l2]. exact IH.
Qed.

End InvariantFacts.

Module PolylineClaims.
Import GeoMath Engine Ingestor Invariants IngestorFacts InvariantFacts.

Local Open Scope Z_scope.

(** C5: [maybeAppend] appends exactly when no point of the session lies in
    the last [POLYLINE_MIN_INTERVAL] seconds up to the timestamp (so always
    for the session's first point), returns whether it appended, and leaves
    the engine unchanged otherwise. In every reachable engine, two consecutive
    points of a session's polyline are at least 60 seconds apart, the only
    exception being the last pair of a Closed session, whose last point is
    the one recorded at checkout. *)
Theorem polyline_spacing_and_maybeAppend :
  (forall e sid p ts,
     let pts := pointsFor e sid in
     (fst (maybeAppend e sid p ts) = true <->
        forall q, In q pts -> ~ (ts - POLYLINE_MIN_INTERVAL < pp_ts q /\ pp_ts q <= ts)) /\
     (pts = [] -> fst (maybeAppend e sid p ts) = true) /\
     (fst (maybeAppend e sid p ts) = true ->
        snd (maybeAppend e sid p ts) = append_point e sid p ts /\
        pointsFor (snd (maybeAppend e sid p ts)) sid = pts ++ [mkPoint sid (length pts) p ts]) /\
     (fst (maybeAppend e sid p ts) = false -> snd (maybeAppend e sid p ts) = e)) /\
  (forall e, reachable e -> forall sid i p q,
     pointsFor e sid !! i = Some p -> pointsFor e sid !! S i = Some q ->
     pp_ts p + POLYLINE_MIN_INTERVAL <= pp_ts q \/
     ((exists s, sessions e !! sid = Some s /\ s_state s = Closed) /\
      S (S i) = length (pointsFor e sid))).
Proof.
  split.
  - intros e sid p ts pts.
    assert (Hiff : forall q, recent ts q = false <->
              ~ (ts - POLYLINE_MIN_INTERVAL < pp_ts q /\ pp_ts q <= ts)).
    { intros q. rewrite <- recent_spec. destruct (recent ts q); intuition congruence. }
    destruct (maybeAppend_cases e sid p ts) as [[Hx Heq]|[Hn Heq]]; rewrite Heq; simpl.
    + apply existsb_exists in Hx. destruct Hx as (q & Hq & Hr).
      split; [split; [discriminate|]|split; [|split; [discriminate|reflexivity]]].
      * intros Hall. exfalso. apply (Hall q Hq). apply recent_spec. exact Hr.
      * intros E. unfold pts in E. rewrite E in Hq. destruct Hq.
    + split; [split; [intros _ q Hq|reflexivity]|split; [reflexivity|split; [|discriminate]]].
      * apply Hiff. destruct (recent ts q) eqn:E; [|reflexivity].
        rewrite <- Hn. symmetry. apply existsb_exists. eauto.
      * intros _. split; [reflexivity|]. rewrite pointsFor_append.
        destruct (decide (sid = sid)); [reflexivity|congruence].
  - intros e He sid i p q Hp Hq.
    pose proof (reachable_Inv _ He) as Hi.
    destruct (sessions e !! sid) as [s|] eqn:Hs.
    + destruct (s_state s) eqn:Ha.
      * left. destruct (inv_active_polyline _ Hi _ _ Hs Ha) as [Hsp _].
        exact (spaced_lookup _ Hsp _ _ _ Hp Hq).
      * destruct (inv_closed_polyline _ Hi _ _ Hs Ha) as (pts & q0 & Heq & Hsp).
        rewrite Heq in Hp, Hq |- *.
        pose proof (lookup_lt_Some _ _ _ Hq) as Hlen. rewrite length_app in Hlen. simpl in Hlen.
        destruct (decide (S i < length pts)%nat) as [Hl|Hl].
        -- left. rewrite lookup_app_l in Hp by lia. rewrite lookup_app_l in Hq by lia.
           exact (spaced_lookup _ Hsp _ _ _ Hp Hq).
        -- right. split; [eauto|]. rewrite length_app. simpl. lia.
    + unfold pointsFor in Hp. rewrite (inv_polyline_owner _ Hi _ Hs) in Hp. discriminate.
Qed.

Lemma polyline_spacing_and_maybeAppend_witness :
  exists p q,
    pointsFor (fst (run (init ∅ []) [OpStart 7 (mkPos 0%R 0%R) 0; OpClose 0 (mkPos 0%R 0%R) 5])) 0 !! 0%nat
      = Some p /\
    pointsFor (fst (run (init ∅ []) [OpStart 7 (mkPos 0%R 0%R) 0; OpClose 0 (mkPos 0%R 0%R) 5])) 0 !! 1%nat
      = Some q /\
    (pp_ts p + POLYLINE_MIN_INTERVAL <= pp_ts q \/
     ((exists s, sessions (fst (run (init ∅ []) [OpStart 7 (mkPos 0%R 0%R) 0; OpClose 0 (mkPos 0%R 0%R) 5]))
                   !! 0 = Some s /\ s_state s = Closed) /\
      2%nat = length (pointsFor (fst (run (init ∅ []) [OpStart 7 (mkPos 0%R 0%R) 0; OpClose 0 (mkPos 0%R 0%R) 5])) 0))).
Proof.
  eexists _, _. split; [reflexivity|]. split; [reflexivity|].
  apply (proj2 polyline_spacing_and_maybeAppend
           (fst (run (init ∅ []) [OpStart 7 (mkPos 0%R 0%R) 0; OpClose 0 (mkPos 0%R 0%R) 5]))
           (reachable_run _ _ (reach_init ∅ [])) 0 0%nat); reflexivity.
Defined.

End PolylineClaims.

Module SessionClaims.
Import GeoMath Engine Ingestor Invariants IngestorFacts InvariantFacts.

Local Open Scope Z_scope.

(** C6: in every reachable engine each employee has at most one Active
    session. [startSession] fails with [SessionAlreadyActive] exactly when
    the employee has an Active session; otherwise it succeeds with a fresh
    session id whose session is Active, starts at [now] at the given
    position with distance 0, and the resulting engine is again reachable,
    so the invariant holds after every operation. *)
Theorem one_active_session_per_employee e :
  reachable e ->
  (forall sid1 sid2 s1 s2,
     sessions e !! sid1 = Some s1 -> sessions e !! sid2 = Some s2 ->
     s_state s1 = Active -> s_state s2 = Active -> s_emp s1 = s_emp s2 -> sid1 = sid2) /\
  (forall emp p now,
     match startSession e emp p now with
     | Err x =>
         x = SessionAlreadyActive /\
         exists sid s, sessions e !! sid = Some s /\ s_emp s = emp /\ s_state s = Active
     | Ok (sid, e') =>
         (forall sid0 s0, sessions e !! sid0 = Some s0 -> s_emp s0 = emp -> s_state s0 = Closed) /\
         sessions e !! sid = None /\
         sessions e' !! sid = Some (mkSession emp Active now p p now 0%R None None) /\
         reachable e'
     end).
Proof.
  intros He. pose proof (reachable_Inv _ He) as Hi. split.
  - intros sid1 sid2 s1 s2 H1 H2 A1 A2 E.
    pose proof (inv_active_indexed _ Hi _ _ H1 A1) as I1.
    pose proof (inv_active_indexed _ Hi _ _ H2 A2) as I2.
    rewrite E in I1. congruence.
  - intros emp p now.
    pose proof (reach_step e (OpStart emp p now) He) as Hr. simpl in Hr.
    unfold startSession in *.
    destruct (active e !! emp) as [sid|] eqn:Ha.
    + split; [reflexivity|].
      destruct (inv_active_table _ Hi _ _ Ha) as (s & Hs & Hemp & Hst). eauto.
    + split; [|split; [|split]].
      * intros sid0 s0 H0 E0. destruct (s_state s0) eqn:Hst; [|reflexivity].
        pose proof (inv_active_indexed _ Hi _ _ H0 Hst) as I. congruence.
      * apply (inv_fresh _ Hi). lia.
      * match goal with
        | |- sessions (snd (maybeAppend ?E ?a ?b ?c)) !! _ = _ =>
            pose proof (maybeAppend_fields E a b c) as (G & _)
        end.
        rewrite G. apply lookup_insert_eq.
      * exact Hr.
Qed.

Lemma one_active_session_per_employee_witness :
  reachable (fst (run (init ∅ []) [OpStart 7 (mkPos 0%R 0%R) 0])) /\
  match startSession (fst (run (init ∅ []) [OpStart 7 (mkPos 0%R 0%R) 0])) 7 (mkPos 0%R 0%R) 3 with
  | Err x =>
      x = SessionAlreadyActive /\
      exists sid s, sessions (fst (run (init ∅ []) [OpStart 7 (mkPos 0%R 0%R) 0])) !! sid = Some s /\
        s_emp s = 7 /\ s_state s = Active
  | Ok _ => False
  end.
Proof.
  assert (He : reachable (fst (run (init ∅ []) [OpStart 7 (mkPos 0%R 0%R) 0])))
    by (apply reachable_run, reach_init).
  split; [exact He|].
  pose proof (proj2 (one_active_session_per_employee _ He) 7 (mkPos 0%R 0%R) 3) as H.
  revert H. vm_compute. intros H. exact H.
Defined.

(** C7: once [closeSession] succeeds (which requires an Active session), the
    session is Closed, and after any further sequence of operations it is
    still the same Closed session, every [update] for its id fails with
    [SessionClosed] leaving the engine unchanged and making no calls, and a
    second [closeSession] fails with [SessionAlreadyClosed]. *)
Theorem closed_session_rejects_updates e sid pc now s e1 :
  reachable e -> closeSession e sid pc now = Ok (s, e1) ->
  (exists s0, sessions e !! sid = Some s0 /\ s_state s0 = Active) /\
  s_state s = Closed /\
  forall ops,
    let e2 := fst (run e1 ops) in
    sessions e2 !! sid = Some s /\
    (forall p ts, update sid p ts e2 = (Err SessionClosed, e2, [])) /\
    (forall pc' now', closeSession e2 sid pc' now' = Err SessionAlreadyClosed).
Proof.
  intros He Hc.
  assert (He1 : reachable e1).
  { pose proof (reach_step e (OpClose sid pc now) He) as H. simpl in H.
    rewrite Hc in H. exact H. }
  unfold closeSession in Hc.
  destruct (sessions e !! sid) as [s0|] eqn:Hs; [|discriminate].
  destruct (s_state s0) eqn:Ha; [|discriminate].
  injection Hc as <- He1eq.
  assert (Hcl : s_state (closed s0 pc now) = Closed) by reflexivity.
  assert (Hs1 : sessions e1 !! sid = Some (closed s0 pc now)).
  { rewrite <- He1eq. unfold append_point, set_polylines, set_active, set_sessions.
    cbn [sessions]. apply lookup_insert_eq. }
  split; [eauto|]. split; [exact Hcl|].
  intros ops e2.
  assert (Hs2 : sessions e2 !! sid = Some (closed s0 pc now))
    by exact (run_keeps_closed e1 ops sid _ He1 Hs1 Hcl).
  split; [exact Hs2|]. split.
  - intros p ts. rewrite update_eq. unfold active_session. rewrite Hs2, Hcl. reflexivity.
  - intros pc' now'. unfold closeSession. rewrite Hs2, Hcl. reflexivity.
Qed.

Lemma closed_session_rejects_updates_witness :
  exists s e1,
    closeSession (fst (run (init ∅ []) [OpStart 7 (mkPos 0%R 0%R) 0])) 0 (mkPos 0%R 0%R) 5 = Ok (s, e1) /\
    (exists s0, sessions (fst (run (init ∅ []) [OpStart 7 (mkPos 0%R 0%R) 0])) !! 0 = Some s0 /\
       s_state s0 = Active) /\
    s_state s = Closed /\
    forall ops,
      let e2 := fst (run e1 ops) in
      sessions e2 !! 0 = Some s /\
      (forall p ts, update 0 p ts e2 = (Err SessionClosed, e2, [])) /\
      (forall pc' now', closeSession e2 0 pc' now' = Err SessionAlreadyClosed).
Proof.
  eexists _, _. split; [reflexivity|].
  apply (closed_session_rejects_updates
           (fst (run (init ∅ []) [OpStart 7 (mkPos 0%R 0%R) 0])) 0 (mkPos 0%R 0%R) 5).
  - apply reachable_run, reach_init.
  - reflexivity.
Defined.

End SessionClaims.

Module TrackingFacts.
Import UserTracking.

Local Open Scope Z_scope.

Lemma on_position_fields parsed t now la lo :
  let t' := on_position parsed t now la lo in
  pos t' = Some (la, lo) /\
  ((now - lastUpdateTime t >= UPDATE_INTERVAL_MS /\ lastUpdateTime t' = now /\
    match parsed with
    | Some sid => sent t' = sent t ++ [mkRequest now sid la lo]
    | None => sent t' = sent t
    end) \/
   (now - lastUpdateTime t < UPDATE_INTERVAL_MS /\ lastUpdateTime t' = lastUpdateTime t /\
    sent t' = sent t)).
Proof.
  unfold on_position. cbn [lastUpdateTime pos sent isTracking].
  destruct (now - lastUpdateTime t >=? UPDATE_INTERVAL_MS) eqn:E.
  - apply Z.geb_le in E. destruct parsed; simpl; split; auto; left; repeat split; lia.
  - rewrite Z.geb_leb in E. apply Z.leb_gt in E. simpl. split; [reflexivity|]. right. repeat split; lia.
Qed.

Lemma gaps_snoc (l : list Request) x :
  (forall i r1 r2, l !! i = Some r1 -> l !! S i = Some r2 ->
     rq_time r1 + UPDATE_INTERVAL_MS <= rq_time r2) ->
  (forall r, In r l -> rq_time r + UPDATE_INTERVAL_MS <= rq_time x) ->
  forall i r1 r2, (l ++ [x]) !! i = Some r1 -> (l ++ [x]) !! S i = Some r2 ->
    rq_time r1 + UPDATE_INTERVAL_MS <= rq_time r2.
Proof.
  intros Hg Hx i r1 r2 H1 H2.
  pose proof (lookup_lt_Some _ _ _ H2) as Hlen. rewrite length_app in Hlen. simpl in Hlen.
  destruct (decide (S i < length l)%nat) as [Hl|Hl].
  - rewrite lookup_app_l in H1 by lia. rewrite lookup_app_l in H2 by lia. eauto.
  - rewrite lookup_app_l in H1 by lia.
    rewrite lookup_app_r in H2 by lia.
    replace (S i - length l)%nat with 0%nat in H2 by lia. simpl in H2. injection H2 as <-.
    apply Hx. apply list_elem_of_lookup_2 in H1. apply list_elem_of_In. exact H1.
Qed.

Lemma watch_inv parsed evs t :
  (forall r, In r (sent t) -> rq_time r <= lastUpdateTime t) ->
  (forall i r1 r2, sent t !! i = Some r1 -> sent t !! S i = Some r2 ->
     rq_time r1 + UPDATE_INTERVAL_MS <= rq_time r2) ->
  let t' := watch parsed t evs in
  (forall r, In r (sent t') -> rq_time r <= lastUpdateTime t') /\
  (forall i r1 r2, sent t' !! i = Some r1 -> sent t' !! S i = Some r2 ->
     rq_time r1 + UPDATE_INTERVAL_MS <= rq_time r2).
Proof.
  revert t. induction evs as [|[[now la] lo] rest IH]; intros t Hle Hg; simpl; [auto|].
  apply IH.
  - destruct (on_position_fields parsed t now la lo) as (_ & [(Hge & Hl & Hs)|(Hlt & Hl & Hs)]).
    + rewrite Hl. destruct parsed as [sid|]; rewrite Hs.
      * intros r Hr. apply in_app_or in Hr. destruct Hr as [Hr|[<-|[]]].
        -- specialize (Hle r Hr). unfold UPDATE_INTERVAL_MS in Hge. lia.
        -- simpl. lia.
      * intros r Hr. specialize (Hle r Hr). unfold UPDATE_INTERVAL_MS in Hge. lia.
    + rewrite Hl, Hs. exact Hle.
  - destruct (on_position_fields parsed t now la lo) as (_ & [(Hge & Hl & Hs)|(Hlt & Hl & Hs)]).
    + destruct parsed as [sid|]; rewrite Hs; [|exact Hg].
      apply gaps_snoc; [exact Hg|]. intros r Hr. simpl. specialize (Hle r Hr). lia.
    + rewrite Hs. exact Hg.
Qed.

End TrackingFacts.

Module TrackingClaims.
Import UserTracking TrackingFacts.

Local Open Scope Z_scope.

(** C10: the watch callback of [UserTracking] always moves the marker, and
    posts a location update exactly when at least [UPDATE_INTERVAL_MS]
    milliseconds of client time have passed since [lastUpdateTime] and the
    session id parses; otherwise it sends nothing. Hence along any stream of
    positions delivered to one watch, two consecutive requests sent are at
    least 10000 ms apart. *)
Theorem update_location_throttled :
  (forall parsed t now la lo,
     let t' := on_position parsed t now la lo in
     pos t' = Some (la, lo) /\
     ((now - lastUpdateTime t >= UPDATE_INTERVAL_MS /\
       exists sid, parsed = Some sid /\ sent t' = sent t ++ [mkRequest now sid la lo]) \/
      (~ (now - lastUpdateTime t >= UPDATE_INTERVAL_MS /\ parsed <> None) /\
       sent t' = sent t))) /\
  (forall parsed evs i r1 r2,
     sent (watch parsed start_tracker evs) !! i = Some r1 ->
     sent (watch parsed start_tracker evs) !! S i = Some r2 ->
     rq_time r1 + UPDATE_INTERVAL_MS <= rq_time r2).
Proof.
  split.
  - intros parsed t now la lo t'.
    destruct (on_position_fields parsed t now la lo) as (Hp & [(Hge & Hl & Hs)|(Hlt & Hl & Hs)]).
    + split; [exact Hp|]. destruct parsed as [sid|].
      * left. split; [exact Hge|]. eauto.
      * right. split; [|exact Hs]. intros [_ H]. apply H. reflexivity.
    + split; [exact Hp|]. right. split; [|exact Hs]. intros [H _]. lia.
  - intros parsed evs.
    assert (H0 : forall r, In r (sent start_tracker) -> rq_time r <= lastUpdateTime start_tracker)
      by (intros r []).
    assert (G0 : forall i r1 r2, sent start_tracker !! i = Some r1 ->
                   sent start_tracker !! S i = Some r2 ->
                   rq_time r1 + UPDATE_INTERVAL_MS <= rq_time r2)
      by (intros i r1 r2 H; discriminate).
    exact (proj2 (watch_inv parsed evs start_tracker H0 G0)).
Qed.

Lemma update_location_throttled_witness :
  exists r1 r2,
    sent (watch (Some 4) start_tracker
            [(20000, 1%R, 2%R); (25000, 1%R, 2%R); (30000, 1%R, 2%R)]) !! 0%nat = Some r1 /\
    sent (watch (Some 4) start_tracker
            [(20000, 1%R, 2%R); (25000, 1%R, 2%R); (30000, 1%R, 2%R)]) !! 1%nat = Some r2 /\
    rq_time r1 + UPDATE_INTERVAL_MS <= rq_time r2.
Proof.
  eexists _, _. split; [reflexivity|]. split; [reflexivity|].
  apply (proj2 update_location_throttled (Some 4)
           [(20000, 1%R, 2%R); (25000, 1%R, 2%R); (30000, 1%R, 2%R)] 0%nat); reflexivity.
Defined.

End TrackingClaims.

Module JsNumberFacts.
Import String Ascii JsNumber.

Local Open Scope Z_scope.

Lemma append_cons c s r : (String c s ++ r)%string = String c (s ++ r)%string.
Proof. reflexivity. Qed.

Lemma digits_step radix c s acc d :
  digit_value radix c = Some d ->
  digits_value radix (String c s) acc = digits_value radix s (Some (default 0 acc * radix + d)).
Proof. intros H. simpl. rewrite H. reflexivity. Qed.

Lemma digits_stop radix c s acc :
  digit_value radix c = None -> digits_value radix (String c s) acc = acc.
Proof. intros H. simpl. rewrite H. reflexivity. Qed.

Lemma digits_pos d rest :
  (forall a, digits_value 10 rest (Some a) = Some a) ->
  forall acc, digits_value 10 (uint_digits d ++ rest) (Some (Zpos acc)) =
              Some (Zpos (Pos.of_uint_acc d acc)).
Proof.
  intros Hrest. induction d as [|d IH|d IH|d IH|d IH|d IH|d IH|d IH|d IH|d IH|d IH];
    intros acc; [exact (Hrest _)|..];
    cbn [uint_digits Pos.of_uint_acc]; rewrite append_cons;
    erewrite digits_step by reflexivity; cbn [from_option id]; rewrite <- IH; do 2 f_equal; unfold Datatypes.id;
    match goal with |- _ * 10 + ?e = _ => let v := eval compute in e in change e with v end;
    lia.
Qed.

Lemma digits_uint d rest :
  (forall a, digits_value 10 rest (Some a) = Some a) ->
  digits_value 10 (uint_digits d ++ rest) (Some 0) = Some (Z.of_uint d).
Proof.
  intros Hrest. induction d as [|d IH|d|d|d|d|d|d|d|d|d];
    [exact (Hrest _)|
     cbn [uint_digits]; rewrite append_cons; erewrite digits_step by reflexivity; exact IH|..];
    cbn [uint_digits]; rewrite append_cons; erewrite digits_step by reflexivity; cbn [from_option id];
    match goal with |- digits_value _ _ (Some ?v) = _ =>
      let p := eval compute in v in change v with p end;
    rewrite (digits_pos _ _ Hrest); reflexivity.
Qed.

Lemma parseInt_unsigned c t :
  is_ws c = false -> Ascii.eqb c "-"%char = false -> Ascii.eqb c "+"%char = false ->
  (Ascii.eqb c "0"%char = true -> forall x r, t = String x r ->
     Ascii.eqb x "x"%char = false /\ Ascii.eqb x "X"%char = false) ->
  parseInt (String c t) = digits_value 10 (String c t) None.
Proof.
  intros Hws Hm Hp Hx. unfold parseInt. cbn [trim_start]. rewrite Hws, Hm, Hp.
  assert (Hr : match String c t with
               | String c0 (String x r) =>
                   if (Ascii.eqb c0 "0"%char && (Ascii.eqb x "x"%char || Ascii.eqb x "X"%char))%bool
                   then (16, r) else (10, String c t)
               | _ => (10, String c t)
               end = (10, String c t)).
  { destruct t as [|x r]; [reflexivity|].
    destruct (Ascii.eqb c "0"%char) eqn:E; [|reflexivity].
    destruct (Hx eq_refl x r eq_refl) as [-> ->]. reflexivity. }
  rewrite Hr. destruct (digits_value 10 (String c t) None); [|reflexivity].
  rewrite Z.mul_1_l. reflexivity.
Qed.

Lemma parseInt_negative c t :
  Ascii.eqb c "0"%char = false \/
    (forall x r, t = String x r -> Ascii.eqb x "x"%char = false /\ Ascii.eqb x "X"%char = false) ->
  parseInt (String "-" (String c t)) =
  match digits_value 10 (String c t) None with Some v => Some (- v) | None => None end.
Proof.
  intros Hx. unfold parseInt. cbn [trim_start]. change (is_ws "-"%char) with false.
  cbv iota beta. change (Ascii.eqb "-"%char "-"%char) with true. cbv iota beta.
  assert (Hr : match String c t with
               | String c0 (String x r) =>
                   if (Ascii.eqb c0 "0"%char && (Ascii.eqb x "x"%char || Ascii.eqb x "X"%char))%bool
                   then (16, r) else (10, String c t)
               | _ => (10, String c t)
               end = (10, String c t)).
  { destruct t as [|x r]; [reflexivity|].
    destruct Hx as [E|Hx]; [rewrite E; reflexivity|].
    destruct (Hx x r eq_refl) as [-> ->]. rewrite andb_false_r. reflexivity. }
  rewrite Hr. destruct (digits_value 10 (String c t) None); [|reflexivity].
  f_equal; lia.
Qed.

Lemma ends_number_digits rest :
  ends_number rest -> forall a, digits_value 10 rest (Some a) = Some a.
Proof.
  intros H a. destruct rest as [|c r]; [reflexivity|].
  apply digits_stop. exact (proj1 (H c r eq_refl)).
Qed.

Lemma uint_next d rest x r :
  ends_number rest -> (uint_digits d ++ rest)%string = String x r ->
  Ascii.eqb x "x"%char = false /\ Ascii.eqb x "X"%char = false.
Proof.
  intros Hr. destruct d; cbn [uint_digits];
    [intros H; destruct (Hr x r H) as (_ & Hx & HX);
     split; apply Ascii.eqb_neq; assumption|..];
    rewrite append_cons; intros H; injection H as <- _; split; reflexivity.
Qed.

Lemma uint_split d rest :
  d <> Decimal.Nil -> ends_number rest ->
  exists c t, (uint_digits d ++ rest)%string = String c t /\
    is_ws c = false /\ Ascii.eqb c "-"%char = false /\ Ascii.eqb c "+"%char = false /\
    (forall x r, t = String x r -> Ascii.eqb x "x"%char = false /\ Ascii.eqb x "X"%char = false).
Proof.
  intros Hd Hr. destruct d; [congruence|..]; cbn [uint_digits]; rewrite append_cons;
    (eexists _, _; split; [reflexivity|]);
    (split; [reflexivity|split; [reflexivity|split; [reflexivity|]]]);
    intros x r H; exact (uint_next _ _ x r Hr H).
Qed.

Lemma digits_none_some d rest :
  d <> Decimal.Nil ->
  digits_value 10 (uint_digits d ++ rest) None = digits_value 10 (uint_digits d ++ rest) (Some 0).
Proof.
  intros Hd. destruct d; [congruence|..]; cbn [uint_digits]; rewrite append_cons;
    (erewrite digits_step by reflexivity); (erewrite digits_step by reflexivity); reflexivity.
Qed.

Lemma to_int_not_nil n d :
  (Z.to_int n = Decimal.Pos d \/ Z.to_int n = Decimal.Neg d) -> d <> Decimal.Nil.
Proof.
  intros H ->. pose proof (DecimalZ.of_to n) as E.
  destruct H as [H|H]; rewrite H in E; cbn in E; subst n; discriminate H.
Qed.


Lemma parse_toString n rest :
  ends_number rest -> parseInt (toString n ++ rest) = Some n.
Proof.
  intros Hr. pose proof (DecimalZ.of_to n) as E. unfold toString.
  destruct (Z.to_int n) as [d|d] eqn:Ei.
  - assert (Hd : d <> Decimal.Nil) by (apply (to_int_not_nil n); auto).
    destruct (uint_split d rest Hd Hr) as (c & t & Hs & Hws & Hm & Hp & Hx).
    rewrite Hs, parseInt_unsigned by (auto; intros _; exact Hx).
    rewrite <- Hs, digits_none_some, digits_uint by (auto using ends_number_digits).
    rewrite <- E. reflexivity.
  - assert (Hd : d <> Decimal.Nil) by (apply (to_int_not_nil n); auto).
    destruct (uint_split d rest Hd Hr) as (c & t & Hs & _ & _ & _ & Hx).
    rewrite append_cons, Hs, parseInt_negative by (right; exact Hx).
    rewrite <- Hs, digits_none_some, digits_uint by (auto using ends_number_digits).
    rewrite <- E. reflexivity.
Qed.

(** The decimal text [toString] gives back its number under [parseInt],
    whatever follows it that does not continue a number: a page that
    renders an id with [toString] and reads it back with [parseInt] sees
    the same id (for the safe integers, where a Number is exact). *)
Theorem parseInt_toString n rest :
  Z.abs n <= 2 ^ 53 -> ends_number rest ->
  parseInt (toString n ++ rest) = Some n.
Proof. intros _ Hr. exact (parse_toString n rest Hr). Qed.

Lemma parseInt_toString_witness :
  Z.abs (-305) <= 2 ^ 53 /\ ends_number "abc"%string /\
  parseInt (toString (-305) ++ "abc") = Some (-305).
Proof.
  assert (Hr : ends_number "abc"%string).
  { intros c r H. injection H as <- _. split; [reflexivity|split; discriminate]. }
  split; [vm_compute; discriminate|split; [exact Hr|]].
  apply parseInt_toString; [vm_compute; discriminate|exact Hr].
Defined.

End JsNumberFacts.

Module TrackingPageFacts.
Import String UserTracking JsNumber UserTrackingPage.

Local Open Scope Z_scope.

Lemma watch_parsed n evs t :
  isTracking t = true -> Forall (fun r => rq_session r = n) (sent t) ->
  isTracking (watch (Some n) t evs) = true /\
  Forall (fun r => rq_session r = n) (sent (watch (Some n) t evs)).
Proof.
  revert t. induction evs as [|[[now la] lo] rest IH]; intros t Ht Hs; [auto|].
  simpl. apply IH; unfold on_position; cbn [lastUpdateTime isTracking sent pos];
    (destruct (now - lastUpdateTime t >=? UPDATE_INTERVAL_MS); cbn [isTracking sent]);
    auto. apply Forall_app. split; [exact Hs|]. constructor; [reflexivity|constructor].
Qed.

Lemma watch_nan_gen evs t :
  (isTracking t = false \/ lastUpdateTime t = 0) ->
  sent (watch None t evs) = sent t /\
  (isTracking (watch None t evs) = false <->
   isTracking t = false \/ exists now la lo, In (now, la, lo) evs /\ UPDATE_INTERVAL_MS <= now).
Proof.
  revert t. induction evs as [|[[now la] lo] rest IH]; intros t Ht.
  - simpl. split; [reflexivity|]. split; [auto|]. intros [H|(? & ? & ? & [] & _)]. exact H.
  - simpl. unfold on_position. cbn [lastUpdateTime isTracking sent pos].
    destruct (now - lastUpdateTime t >=? UPDATE_INTERVAL_MS) eqn:E.
    + destruct (IH (mkTracker now (Some (la, lo)) false (sent t)) (or_introl eq_refl))
        as [Hs Hi].
      split; [exact Hs|]. split; [intros _|intros _; apply Hi; left; reflexivity].
      destruct (isTracking t) eqn:Et; [right|left; reflexivity].
      destruct Ht as [Ht|Ht]; [discriminate|]. apply Z.geb_le in E. rewrite Ht in E.
      exists now, la, lo. split; [left; reflexivity|lia].
    + destruct (IH (mkTracker (lastUpdateTime t) (Some (la, lo)) (isTracking t) (sent t)) Ht)
        as [Hs Hi].
      split; [exact Hs|]. rewrite Hi. cbn [isTracking]. split.
      * intros [H|(n' & a & b & Hin & Hle)]; [left; exact H|].
        right. exists n', a, b. split; [right; exact Hin|exact Hle].
      * intros [H|(n' & a & b & [Heq|Hin] & Hle)]; [left; exact H| |].
        -- injection Heq as <- <- <-. destruct Ht as [Ht|Ht]; [left; exact Ht|].
           rewrite Z.geb_leb in E. apply Z.leb_gt in E. rewrite Ht in E. lia.
        -- right. exists n', a, b. split; assumption.
Qed.

(** The tracking page is shown exactly when the route parameter is present
    and parses ([parseInt] of the empty string is already NaN); then the
    watch callback never switches tracking off by itself, and every
    location update it posts carries that parsed id. *)
Theorem rendered_page_tracks sid :
  session_param_ok sid = true ->
  exists s n, sid = Some s /\ parseInt s = Some n /\
    forall evs,
      isTracking (watch (parseInt s) start_tracker evs) = true /\
      Forall (fun r => rq_session r = n) (sent (watch (parseInt s) start_tracker evs)).
Proof.
  intros H. destruct sid as [s|]; [|discriminate].
  exists s. unfold session_param_ok in H.
  destruct (parseInt s) as [n|] eqn:E; [|destruct s; discriminate].
  exists n. split; [reflexivity|split; [reflexivity|]].
  intros evs. apply watch_parsed; [reflexivity|constructor].
Qed.

Lemma rendered_page_tracks_witness :
  session_param_ok (Some "42"%string) = true /\
  exists s n, Some "42"%string = Some s /\ parseInt s = Some n /\
    forall evs,
      isTracking (watch (parseInt s) start_tracker evs) = true /\
      Forall (fun r => rq_session r = n) (sent (watch (parseInt s) start_tracker evs)).
Proof.
  split; [reflexivity|]. apply rendered_page_tracks. reflexivity.
Defined.

(** When the session id does not parse, the watch callback never posts a
    location update; it switches tracking off as soon as a position arrives
    at a client time of at least [UPDATE_INTERVAL_MS] (every real clock
    reading), and not before. *)
Theorem watch_nan_never_posts evs :
  sent (watch None start_tracker evs) = [] /\
  (isTracking (watch None start_tracker evs) = false <->
   exists now la lo, In (now, la, lo) evs /\ UPDATE_INTERVAL_MS <= now).
Proof.
  destruct (watch_nan_gen evs start_tracker (or_intror eq_refl)) as [Hs Hi].
  split; [exact Hs|]. rewrite Hi. split; [|auto].
  intros [H|H]; [discriminate|exact H].
Qed.



End TrackingPageFacts.

Module LiveTrackingFacts.
Import String JsNumber LiveTracking.

Local Open Scope Z_scope.

Lemma find_some_split {A} (f : A -> bool) l a :
  find f l = Some a ->
  exists pre post, l = pre ++ a :: post /\ f a = true /\ Forall (fun x => f x = false) pre.
Proof.
  induction l as [|x l IH]; [discriminate|]. simpl. destruct (f x) eqn:E.
  - intros H. injection H as <-. exists [], l. auto.
  - intros H. destruct (IH H) as (pre & post & -> & Ha & Hpre).
    exists (x :: pre), post. split; [reflexivity|]. split; [exact Ha|]. constructor; assumption.
Qed.

Lemma find_none_all {A} (f : A -> bool) l :
  find f l = None -> Forall (fun x => f x = false) l.
Proof.
  induction l as [|x l IH]; [constructor|]. simpl. destruct (f x) eqn:E; [discriminate|].
  intros H. constructor; auto.
Qed.

Lemma sessions_list (employeeId : string) (data : option (list SessionRow)) (st : LiveState) :
  employeeId <> EmptyString ->
  let r := loadSessions employeeId (Fetched data) st in
  let l := match data with Some l => l | None => [] end in
  fst r = ["/admin/employee/" ++ employeeId ++ "/sessions"]%string /\
  ls_pos (snd r) = ls_pos st /\
  ((exists pre a post, l = pre ++ a :: post /\ is_open a = true /\
      Forall (fun x => is_open x = false) pre /\
      ls_sessionId (snd r) = SidNum (session_id a) /\
      ls_status (snd r) = Msg "Tracking active session") \/
   (Forall (fun x => is_open x = false) l /\
    match l with
    | a :: _ => ls_sessionId (snd r) = SidNum (session_id a) /\
                ls_status (snd r) = Msg "Tracking latest closed session"
    | [] => ls_sessionId (snd r) = SidStr "" /\ ls_status (snd r) = Msg "No sessions for employee"
    end)).
Proof.
  intros He r l. subst r l. unfold loadSessions.
  destruct employeeId as [|c0 e0]; [congruence|]. cbn [fst snd].
  set (l := match data with Some l => l | None => [] end).
  split; [reflexivity|].
  destruct (find is_open l) as [a|] eqn:Ef.
  - destruct (find_some_split is_open l a Ef) as (pre & post & Hl & Ha & Hpre).
    split; [reflexivity|]. left. exists pre, a, post. auto.
  - pose proof (find_none_all is_open l Ef) as Hall.
    destruct l as [|a rest]; cbn [hd_error ls_pos ls_sessionId ls_status];
      split; auto.
Qed.

(** [loadSessions] for a selected employee requests the employee's
    sessions once and leaves the marker alone. It follows the first open
    session of the list (no [check_out_time]), every row before it being
    closed; when all rows are closed it follows the first row, and an empty
    (or null) list clears the session id. *)
Theorem loadSessions_choice (employeeId : string) (data : option (list SessionRow)) (st : LiveState) :
  employeeId <> EmptyString ->
  let r := loadSessions employeeId (Fetched data) st in
  let l := match data with Some l => l | None => [] end in
  fst r = ["/admin/employee/" ++ employeeId ++ "/sessions"]%string /\
  ls_pos (snd r) = ls_pos st /\
  ((exists pre a post, l = pre ++ a :: post /\ is_open a = true /\
      Forall (fun x => is_open x = false) pre /\
      ls_sessionId (snd r) = SidNum (session_id a) /\
      ls_status (snd r) = Msg "Tracking active session") \/
   (Forall (fun x => is_open x = false) l /\
    match l with
    | a :: _ => ls_sessionId (snd r) = SidNum (session_id a) /\
                ls_status (snd r) = Msg "Tracking latest closed session"
    | [] => ls_sessionId (snd r) = SidStr "" /\ ls_status (snd r) = Msg "No sessions for employee"
    end)).
Proof. exact (sessions_list employeeId data st). Qed.

Lemma loadSessions_choice_witness :
  "7"%string <> EmptyString /\
  let r := loadSessions "7" (Fetched (Some [mkSessionRow 3 (Some "2024-01-01T10:00:00"%string);
                                            mkSessionRow 5 None])) (mkLiveState (SidStr "") None (Msg "")) in
  let l := [mkSessionRow 3 (Some "2024-01-01T10:00:00"%string); mkSessionRow 5 None] in
  fst r = ["/admin/employee/" ++ "7" ++ "/sessions"]%string /\
  ls_pos (snd r) = None /\
  ((exists pre a post, l = pre ++ a :: post /\ is_open a = true /\
      Forall (fun x => is_open x = false) pre /\
      ls_sessionId (snd r) = SidNum (session_id a) /\
      ls_status (snd r) = Msg "Tracking active session") \/
   (Forall (fun x => is_open x = false) l /\
    match l with
    | a :: _ => ls_sessionId (snd r) = SidNum (session_id a) /\
                ls_status (snd r) = Msg "Tracking latest closed session"
    | [] => ls_sessionId (snd r) = SidStr "" /\ ls_status (snd r) = Msg "No sessions for employee"
    end)).
Proof.
  split; [discriminate|].
  exact (loadSessions_choice "7" (Some [mkSessionRow 3 (Some "2024-01-01T10:00:00"%string);
                                        mkSessionRow 5 None])
           (mkLiveState (SidStr "") None (Msg "")) ltac:(discriminate)).
Defined.

(** Whatever the employee selection and the answer, [loadSessions] makes at
    most one request, never moves the marker, and never invents a session
    id: it ends with the empty id, with the id it had (only when the request
    failed), or with the id of a row the server returned. *)
Theorem loadSessions_session_source (employeeId : string) resp (st : LiveState) :
  let r := loadSessions employeeId resp st in
  (List.length (fst r) <= 1)%nat /\ ls_pos (snd r) = ls_pos st /\
  (ls_sessionId (snd r) = SidStr "" \/
   (resp = FetchFailed /\ ls_sessionId (snd r) = ls_sessionId st) \/
   exists data a, resp = Fetched data /\
     In a (match data with Some l => l | None => [] end) /\
     ls_sessionId (snd r) = SidNum (session_id a)).
Proof.
  intros r. subst r. destruct employeeId as [|c0 e0].
  - simpl. auto.
  - destruct resp as [data|].
    + destruct (sessions_list (String c0 e0) data st ltac:(discriminate)) as (Hu & Hp & Hc).
      rewrite Hu. split; [simpl; lia|]. split; [exact Hp|].
      destruct Hc as [(pre & a & post & Hl & _ & _ & Hs & _)|(_ & Hc)].
      * right; right. exists data, a. split; [reflexivity|]. split; [|exact Hs].
        rewrite Hl. apply in_or_app. right. left. reflexivity.
      * destruct (match data with Some l => l | None => [] end) as [|a rest] eqn:El.
        -- left. exact (proj1 Hc).
        -- right; right. exists data, a. split; [reflexivity|].
           rewrite El. split; [left; reflexivity|exact (proj1 Hc)].
    + simpl. split; [lia|]. split; [reflexivity|]. right; left. auto.
Qed.

(** [poll] does nothing while the session id is falsy (the empty string,
    or the number 0). Otherwise it requests the live location of that id
    once and keeps the session id; the marker then moves only to a fix the
    server returned with a nonzero latitude (the status shows its time),
    and otherwise stays, with status "No live data yet" for a missing or
    zero latitude and "Polling failed" for a failed request or a null
    body. *)
Theorem poll_outcomes (sessionId : SidVal) (resp : Fetch (option LiveLocation)) (st : LiveState) :
  let r := poll sessionId resp st in
  (sid_truthy sessionId = false -> r = ([], st)) /\
  (sid_truthy sessionId = true ->
   fst r = ["/admin/live-location/" ++ sid_text sessionId]%string /\
   ls_sessionId (snd r) = ls_sessionId st /\
   ((exists d la, resp = Fetched (Some d) /\ ll_lat d = Some la /\ la <> 0%R /\
       ls_pos (snd r) = Some (la, ll_lng d) /\ ls_status (snd r) = LastUpdate (ll_timestamp d)) \/
    (exists d, resp = Fetched (Some d) /\ num_truthy (ll_lat d) = false /\
       ls_pos (snd r) = ls_pos st /\ ls_status (snd r) = Msg "No live data yet") \/
    ((resp = FetchFailed \/ resp = Fetched None) /\
       ls_pos (snd r) = ls_pos st /\ ls_status (snd r) = Msg "Polling failed"))).
Proof.
  intros r. subst r. unfold poll. split.
  - intros H. rewrite H. reflexivity.
  - intros H. rewrite H. cbn [negb fst snd]. split; [reflexivity|].
    destruct resp as [[d|]|]; cbn [ls_sessionId ls_pos ls_status].
    + destruct (ll_lat d) as [la|] eqn:El.
      * unfold num_truthy. destruct (Req_EM_T la 0) as [E|E]; cbn [ls_sessionId ls_pos ls_status].
        -- split; [reflexivity|]. right; left. exists d. split; [reflexivity|].
           rewrite El. unfold num_truthy. destruct (Req_EM_T la 0); [|contradiction]. auto.
        -- split; [reflexivity|]. left. exists d, la. auto.
      * split; [reflexivity|]. right; left. exists d. rewrite El. auto.
    + split; [reflexivity|]. right; right. auto.
    + split; [reflexivity|]. right; right. auto.
Qed.


End LiveTrackingFacts.

Module PipelineFacts.
Import GeoMath Pipeline.

Local Open Scope Z_scope.

Lemma bind_post {A} r (k : Z -> Sim A) w :
  bind (post r) k w =
  match snd (network w (sent_count w)) with
  | Some a => k a (mkWorld (clock w + fst (network w (sent_count w))) (network w)
                     (S (sent_count w)) (requests w ++ [(clock w, r)]))
  | None => (None, mkWorld (clock w + fst (network w (sent_count w))) (network w)
                     (S (sent_count w)) (requests w ++ [(clock w, r)]))
  end.
Proof. unfold bind, post. destruct (network w (sent_count w)) as [l [a|]]; reflexivity. Qed.

Lemma bind_sleep {A} ms (k : unit -> Sim A) w :
  bind (sleep ms) k w = k tt (mkWorld (clock w + ms) (network w) (sent_count w) (requests w)).
Proof. reflexivity. Qed.

Lemma bind_some {A B} (m : Sim A) (k : A -> Sim B) w a w1 :
  m w = (Some a, w1) -> bind m k w = k a w1.
Proof. intros H. unfold bind. rewrite H. reflexivity. Qed.

Lemma bind_none {A B} (m : Sim A) (k : A -> Sim B) w w1 :
  m w = (None, w1) -> bind m k w = (None, w1).
Proof. intros H. unfold bind. rewrite H. reflexivity. Qed.

Lemma try_ret (m : Sim unit) w : try_catch m (ret tt) w = (Some tt, snd (m w)).
Proof. unfold try_catch, ret. destruct (m w) as [[[]|] w1]; reflexivity. Qed.

Lemma in_map_snd {A B C} (new : list (A * B)) (f : C -> B) l t r :
  map snd new = map f l -> In (t, r) new -> exists x, r = f x /\ In x l.
Proof.
  intros Hm Hi. pose proof (in_map snd _ _ Hi) as Hi'. cbn [snd] in Hi'. rewrite Hm in Hi'.
  apply in_map_iff in Hi'. destruct Hi' as (x & <- & Hx). eauto.
Qed.

Lemma create_loop_spec gfs acc w :
  fst (create_loop gfs acc w) =
    Some (acc ++ omap (fun k => snd (network w k)) (seq (sent_count w) (length gfs))) /\
  network (snd (create_loop gfs acc w)) = network w /\
  sent_count (snd (create_loop gfs acc w)) = (sent_count w + length gfs)%nat /\
  exists new, requests (snd (create_loop gfs acc w)) = requests w ++ new /\
    map snd new = map PostGeofenceCreate gfs.
Proof.
  revert acc w. induction gfs as [|gf rest IH]; intros acc w.
  - cbn [create_loop length seq]. unfold ret. cbn [fst snd].
    rewrite Nat.add_0_r. split; [simpl; rewrite app_nil_r; reflexivity|].
    split; [reflexivity|]. split; [reflexivity|]. exists []. rewrite app_nil_r. auto.
  - assert (Hs : create_loop (gf :: rest) acc w =
      create_loop rest (match snd (network w (sent_count w)) with
                        | Some id => acc ++ [id] | None => acc end)
        (mkWorld (clock w + fst (network w (sent_count w))) (network w) (S (sent_count w))
           (requests w ++ [(clock w, PostGeofenceCreate gf)]))).
    { cbn [create_loop]. unfold bind, try_catch, post, ret.
      destruct (network w (sent_count w)) as [l [id|]]; reflexivity. }
    rewrite Hs.
    destruct (IH (match snd (network w (sent_count w)) with
                  | Some id => acc ++ [id] | None => acc end)
                 (mkWorld (clock w + fst (network w (sent_count w))) (network w) (S (sent_count w))
                    (requests w ++ [(clock w, PostGeofenceCreate gf)])))
      as (H1 & H2 & H3 & new & H4 & H5).
    cbn [network sent_count requests clock] in H1, H2, H3, H4.
    split; [|split; [exact H2|split; [rewrite H3; simpl; lia|]]].
    + rewrite H1. cbn [length seq]. simpl omap.
      destruct (snd (network w (sent_count w))); [rewrite <- app_assoc|]; reflexivity.
    + exists ((clock w, PostGeofenceCreate gf) :: new). rewrite H4, <- app_assoc.
      split; [reflexivity|]. simpl. rewrite H5. reflexivity.
Qed.

Lemma travel_loop_spec sid eid ps w :
  let res := travel_loop sid eid ps w in
  network (snd res) = network w /\
  exists new,
    requests (snd res) = requests w ++ new /\
    sent_count (snd res) = (sent_count w + length new)%nat /\
    map snd new = map (fun p => PostUpdateLocation sid eid (lat p) (lng p)) (firstn (length new) ps) /\
    (forall t r, new !! 0%nat = Some (t, r) -> t = clock w) /\
    (forall i t1 r1 t2 r2, new !! i = Some (t1, r1) -> new !! S i = Some (t2, r2) ->
       t2 = t1 + fst (network w (sent_count w + i)) + 10000) /\
    (forall k t r, length new = S k -> new !! k = Some (t, r) ->
       clock (snd res) = t + fst (network w (sent_count w + k))) /\
    (forall i, (S i < length new)%nat -> snd (network w (sent_count w + i)) <> None) /\
    ((fst res = Some tt /\ length new = length ps /\
      forall i, (i < length new)%nat -> snd (network w (sent_count w + i)) <> None) \/
     (fst res = None /\ exists k, length new = S k /\ snd (network w (sent_count w + k)) = None)).
Proof.
  intros res. subst res. revert w. induction ps as [|p rest IH]; intros w.
  - cbn [travel_loop]. unfold ret. cbn [fst snd]. split; [reflexivity|]. exists [].
    rewrite app_nil_r, Nat.add_0_r.
    split; [reflexivity|]. split; [reflexivity|]. split; [reflexivity|].
    split; [intros t r H; discriminate H|]. split; [intros i t1 r1 t2 r2 H; discriminate H|].
    split; [intros k t r H; discriminate H|]. split; [intros i H; cbn in H; lia|].
    left. split; [reflexivity|]. split; [reflexivity|]. intros i H; cbn in H; lia.
  - cbn [travel_loop]. rewrite bind_post.
    destruct (snd (network w (sent_count w))) as [a|] eqn:Ea.
    + destruct rest as [|q rest'].
      * unfold ret. cbn [fst snd network sent_count requests clock]. split; [reflexivity|].
        exists [(clock w, PostUpdateLocation sid eid (lat p) (lng p))].
        split; [reflexivity|]. split; [cbn; lia|]. split; [reflexivity|].
        split; [intros t r H; cbn in H; injection H as <- _; reflexivity|].
        split; [intros i t1 r1 t2 r2 _ H; discriminate H|].
        split; [intros k t r Hk H; cbn in Hk; injection Hk as <-; cbn in H;
                injection H as <- _; rewrite Nat.add_0_r; reflexivity|].
        split; [intros i H; cbn in H; lia|].
        left. split; [reflexivity|]. split; [reflexivity|].
        intros i H. cbn in H. replace i with 0%nat by lia. rewrite Nat.add_0_r, Ea. discriminate.
      * rewrite bind_sleep.
        destruct (IH (mkWorld (clock w + fst (network w (sent_count w)) + 10000) (network w)
                        (S (sent_count w))
                        (requests w ++ [(clock w, PostUpdateLocation sid eid (lat p) (lng p))])))
          as (Hn & new & Hr & Hc & Hm & H0 & Hsp & Hend & Hsucc & Hout).
        cbn [network sent_count requests clock] in *.
        split; [exact Hn|].
        exists ((clock w, PostUpdateLocation sid eid (lat p) (lng p)) :: new).
        split; [rewrite Hr, <- app_assoc; reflexivity|].
        split; [rewrite Hc; cbn [length]; lia|].
        split; [cbn [length firstn map snd fst]; rewrite Hm; reflexivity|].
        split; [intros t r H; cbn in H; injection H as <- _; reflexivity|].
        assert (Hne : new <> []).
        { intros ->. destruct Hout as [(_ & Hl & _)|(_ & k & Hk & _)]; discriminate. }
        split.
        { intros [|i] t1 r1 t2 r2 H1 H2; cbn in H1, H2.
          - injection H1 as <- _. rewrite (H0 t2 r2 H2), Nat.add_0_r. lia.
          - rewrite (Hsp i t1 r1 t2 r2 H1 H2), Nat.add_succ_r. reflexivity. }
        split.
        { intros [|k] t r Hk H; cbn in Hk, H.
          - injection Hk as Hk. destruct new; [congruence|discriminate].
          - injection Hk as Hk. rewrite (Hend k t r Hk H), Nat.add_succ_r. reflexivity. }
        split.
        { intros [|i] H; cbn in H.
          - rewrite Nat.add_0_r, Ea. discriminate.
          - replace (sent_count w + S i)%nat with (S (sent_count w) + i)%nat by lia.
            apply Hsucc. lia. }
        destruct Hout as [(Hf & Hl & Ha)|(Hf & k & Hk & Hk')].
        -- left. split; [exact Hf|]. split; [cbn [length]; rewrite Hl; reflexivity|].
           intros [|i] H; cbn in H.
           ++ rewrite Nat.add_0_r, Ea. discriminate.
           ++ replace (sent_count w + S i)%nat with (S (sent_count w) + i)%nat by lia.
              apply Ha. lia.
        -- right. split; [exact Hf|]. exists (S k). split; [cbn [length]; rewrite Hk; reflexivity|].
           replace (sent_count w + S k)%nat with (S (sent_count w) + k)%nat by lia. exact Hk'.
    + cbn [fst snd network sent_count requests clock]. split; [reflexivity|].
      exists [(clock w, PostUpdateLocation sid eid (lat p) (lng p))].
      split; [reflexivity|]. split; [cbn; lia|]. split; [reflexivity|].
      split; [intros t r H; cbn in H; injection H as <- _; reflexivity|].
      split; [intros i t1 r1 t2 r2 _ H; discriminate H|].
      split; [intros k t r Hk H; cbn in Hk; injection Hk as <-; cbn in H;
              injection H as <- _; rewrite Nat.add_0_r; reflexivity|].
      split; [intros i H; cbn in H; lia|].
      right. split; [reflexivity|]. exists 0%nat. split; [reflexivity|].
      rewrite Nat.add_0_r. exact Ea.
Qed.

Lemma bind_createEmployee {A} (k : Z -> Sim A) w :
  bind createEmployee k w = bind (post (PostEmployeeCreate (clock w))) k w.
Proof. reflexivity. Qed.

Lemma only_creates (g : list (Z * Request)) gfs t r :
  map snd g = map PostGeofenceCreate gfs -> In (t, r) g -> exists x, r = PostGeofenceCreate x.
Proof. intros Hm Hi. destruct (in_map_snd g _ _ t r Hm Hi) as (x & -> & _). eauto. Qed.

Lemma only_updates (nt : list (Z * Request)) sid eid ps t r :
  map snd nt = map (fun p => PostUpdateLocation sid eid (lat p) (lng p)) ps -> In (t, r) nt ->
  exists p, r = PostUpdateLocation sid eid (lat p) (lng p).
Proof. intros Hm Hi. destruct (in_map_snd nt _ _ t r Hm Hi) as (x & -> & _). eauto. Qed.

Lemma checkout_requests sid w :
  requests (snd (checkoutSession sid w)) = requests w ++ [(clock w, PostCheckout sid)].
Proof. unfold checkoutSession. rewrite bind_post. destruct (snd (network w (sent_count w))); reflexivity. Qed.

Lemma gpsPath_length : length gpsPath = 40%nat.
Proof. reflexivity. Qed.

Lemma pipeline_requests w :
  let n := sent_count w in
  let res := runPipeline w in
  fst res = Some tt /\
  exists new, requests (snd res) = requests w ++ new /\
   (forall s, (exists t, In (t, PostCheckout s) new) <->
      (snd (network w (n + 4)%nat) <> None /\ snd (network w (n + 5)%nat) = Some s /\
       forall k, (k < 40)%nat -> snd (network w (n + 6 + k)%nat) <> None)) /\
   (forall t s e la lo, In (t, PostUpdateLocation s e la lo) new ->
      snd (network w (n + 4)%nat) = Some e /\ snd (network w (n + 5)%nat) = Some s) /\
   (forall t s, In (t, PostCheckout s) new ->
      exists pre tu u, new = pre ++ [(tu, u); (t, PostCheckout s)] /\
        (exists e la lo, u = PostUpdateLocation s e la lo) /\
        t = tu + fst (network w (n + 45)%nat) + 5000).
Proof.
  intros n res. subst res. unfold runPipeline. rewrite try_ret. cbn [fst]. split; [reflexivity|].
  unfold createTestGeofences.
  destruct (create_loop_spec test_geofences [] w) as (C1 & C2 & C3 & g & C4 & C5).
  destruct (create_loop test_geofences [] w) as [r1 w1] eqn:E1. cbn [fst snd] in C1, C2, C3, C4.
  rewrite C1 in E1. rewrite (bind_some _ _ _ _ _ E1), bind_createEmployee, bind_post.
  set (w2 := mkWorld (clock w1 + _) _ _ _).
  assert (N2 : network w2 = network w) by exact C2.
  assert (S2 : sent_count w2 = (n + 5)%nat) by (subst w2; cbn; rewrite C3; cbn; lia).
  assert (R2 : requests w2 = requests w ++ g ++ [(clock w1, PostEmployeeCreate (clock w1))])
    by (subst w2; cbn; rewrite C4, app_assoc; reflexivity).
  clearbody w2. rewrite C3, C2. replace (sent_count w + length test_geofences)%nat with (n + 4)%nat
    by (cbn; subst n; lia).
  assert (Hg : forall t r, In (t, r) g -> exists x, r = PostGeofenceCreate x)
    by (intros t r; exact (only_creates g test_geofences t r C5)).
  destruct (snd (network w (n + 4)%nat)) as [e|] eqn:Ee.
  2:{ cbn [snd]. exists (g ++ [(clock w1, PostEmployeeCreate (clock w1))]).
      split; [exact R2|]. split; [|split].
      - intros s. split; [|intros (H & _); contradiction].
        intros (t & H). apply in_app_or in H. destruct H as [H|[H|[]]].
        + destruct (Hg _ _ H) as [x Hx]. discriminate.
        + discriminate.
      - intros t s e la lo H. apply in_app_or in H. destruct H as [H|[H|[]]].
        + destruct (Hg _ _ H) as [x Hx]. discriminate.
        + discriminate.
      - intros t s H. apply in_app_or in H. destruct H as [H|[H|[]]].
        + destruct (Hg _ _ H) as [x Hx]. discriminate.
        + discriminate. }
  unfold startSession. rewrite bind_post, N2, S2.
  set (w3 := mkWorld (clock w2 + _) _ _ _).
  assert (N3 : network w3 = network w) by reflexivity.
  assert (S3 : sent_count w3 = (n + 6)%nat) by (subst w3; cbn; lia).
  assert (R3 : requests w3 = requests w ++ g ++
                 [(clock w1, PostEmployeeCreate (clock w1)); (clock w2, PostSessionStart e)])
    by (subst w3; cbn; rewrite R2, <- !app_assoc; reflexivity).
  clearbody w3.
  destruct (snd (network w (n + 5)%nat)) as [s|] eqn:Es.
  2:{ cbn [snd]. exists (g ++ [(clock w1, PostEmployeeCreate (clock w1)); (clock w2, PostSessionStart e)]).
      split; [exact R3|]. split; [|split].
      - intros s'. split; [|intros (_ & H & _); discriminate].
        intros (t & H). apply in_app_or in H. destruct H as [H|[H|[H|[]]]].
        + destruct (Hg _ _ H) as [x Hx]. discriminate.
        + discriminate.
        + discriminate.
      - intros t s' e' la lo H. apply in_app_or in H. destruct H as [H|[H|[H|[]]]].
        + destruct (Hg _ _ H) as [x Hx]. discriminate.
        + discriminate.
        + discriminate.
      - intros t s' H. apply in_app_or in H. destruct H as [H|[H|[H|[]]]].
        + destruct (Hg _ _ H) as [x Hx]. discriminate.
        + discriminate.
        + discriminate. }
  unfold simulateTravel.
  destruct (travel_loop_spec s e gpsPath w3)
    as (Hn & nt & Hr & Hc & Hm & _ & _ & Hend & _ & Hout).
  destruct (travel_loop s e gpsPath w3) as [r3 w4] eqn:E3. cbn [fst snd] in Hn, Hr, Hc, Hend, Hout.
  rewrite N3, S3 in *.
  assert (Hu : forall t r, In (t, r) nt -> exists p, r = PostUpdateLocation s e (lat p) (lng p))
    by (intros t r; exact (only_updates nt s e _ t r Hm)).
  set (pre := g ++ [(clock w1, PostEmployeeCreate (clock w1)); (clock w2, PostSessionStart e)]).
  assert (Hpre : forall t r, In (t, r) pre ->
            (forall s', r <> PostCheckout s') /\ forall s' e' la lo, r <> PostUpdateLocation s' e' la lo).
  { intros t r H. subst pre. apply in_app_or in H. destruct H as [H|[H|[H|[]]]].
    - destruct (Hg _ _ H) as [x ->]. split; discriminate.
    - injection H as _ <-. split; discriminate.
    - injection H as _ <-. split; discriminate. }
  destruct Hout as [(Hf & Hl & Ha)|(Hf & k & Hk & Hk')].
  - subst r3. rewrite (bind_some _ _ _ _ _ E3), bind_sleep. cbn [snd].
    rewrite checkout_requests. cbn [clock requests].
    rewrite gpsPath_length in Hl.
    exists (pre ++ nt ++ [(clock w4 + 5000, PostCheckout s)]).
    split; [rewrite Hr, R3; subst pre; rewrite <- !app_assoc; reflexivity|].
    split; [|split].
    + intros s'. split.
      * intros (t & H). apply in_app_or in H. destruct H as [H|H].
        { exfalso. exact (proj1 (Hpre _ _ H) s' eq_refl). }
        apply in_app_or in H. destruct H as [H|[H|[]]].
        { destruct (Hu _ _ H) as [p Hp]. discriminate. }
        injection H as _ <-. split; [discriminate|]. split; [reflexivity|].
        intros k' Hk'. apply Ha. lia.
      * intros (_ & Hs' & _). injection Hs' as <-. exists (clock w4 + 5000).
        apply in_or_app. right. apply in_or_app. right. left. reflexivity.
    + intros t s' e' la lo H. apply in_app_or in H. destruct H as [H|H].
      { exfalso. exact (proj2 (Hpre _ _ H) s' e' la lo eq_refl). }
      apply in_app_or in H. destruct H as [H|[H|[]]].
      * destruct (Hu _ _ H) as [p Hp]. injection Hp as -> -> _ _. auto.
      * discriminate.
    + intros t s' H. apply in_app_or in H. destruct H as [H|H].
      { exfalso. exact (proj1 (Hpre _ _ H) s' eq_refl). }
      apply in_app_or in H. destruct H as [H|[H|[]]].
      { destruct (Hu _ _ H) as [p Hp]. discriminate. }
      injection H as <- <-.
      destruct (lookup_lt_is_Some_2 nt 39%nat ltac:(lia)) as [[tu u] H39].
      assert (Hnt : nt = take 39 nt ++ [(tu, u)]).
      { rewrite <- (take_drop_middle nt 39 (tu, u) H39) at 1.
        rewrite (drop_ge nt 40) by lia. reflexivity. }
      exists (pre ++ take 39 nt), tu, u. split.
      * transitivity (pre ++ (take 39 nt ++ [(tu, u)]) ++ [(clock w4 + 5000, PostCheckout s)]).
        { rewrite <- Hnt. reflexivity. }
        rewrite <- !app_assoc. reflexivity.
      * split.
        { assert (Hin : In (tu, u) nt) by (rewrite Hnt; apply in_or_app; right; left; reflexivity).
          destruct (Hu _ _ Hin) as [p ->]. eauto. }
        pose proof (Hend 39%nat tu u Hl H39) as Hc4.
        replace (n + 6 + 39)%nat with (n + 45)%nat in Hc4 by lia. lia.
  - subst r3. rewrite (bind_none _ _ _ _ E3). cbn [snd].
    assert (Hlen : (length nt <= 40)%nat).
    { apply (f_equal (@length _)) in Hm. rewrite !length_map, length_firstn, gpsPath_length in Hm.
      lia. }
    exists (pre ++ nt).
    split; [rewrite Hr, R3; subst pre; rewrite <- !app_assoc; reflexivity|].
    split; [|split].
    + intros s'. split.
      * intros (t & H). exfalso. apply in_app_or in H. destruct H as [H|H].
        { exact (proj1 (Hpre _ _ H) s' eq_refl). }
        destruct (Hu _ _ H) as [p Hp]. discriminate.
      * intros (_ & _ & Hall). exfalso. apply (Hall k); [lia|exact Hk'].
    + intros t s' e' la lo H. apply in_app_or in H. destruct H as [H|H].
      { exfalso. exact (proj2 (Hpre _ _ H) s' e' la lo eq_refl). }
      destruct (Hu _ _ H) as [p Hp]. injection Hp as -> -> _ _. auto.
    + intros t s' H. exfalso. apply in_app_or in H. destruct H as [H|H].
      { exact (proj1 (Hpre _ _ H) s' eq_refl). }
      destruct (Hu _ _ H) as [p Hp]. discriminate.
Qed.

(** [createTestGeofences] never throws: it posts the four test geofences,
    in order, as its next four requests, and returns the ids of those whose
    post succeeded, in order (a rejected post is skipped). *)
Theorem createTestGeofences_posts_all w :
  let res := createTestGeofences w in
  fst res = Some (omap (fun k => snd (network w k)) (seq (sent_count w) 4)) /\
  sent_count (snd res) = (sent_count w + 4)%nat /\
  exists new, requests (snd res) = requests w ++ new /\
    map snd new = map PostGeofenceCreate test_geofences.
Proof.
  intros res. subst res. unfold createTestGeofences.
  destruct (create_loop_spec test_geofences [] w) as (H1 & _ & H3 & new & H4 & H5).
  split; [exact H1|]. split; [exact H3|]. exists new. auto.
Qed.

(** [simulateTravel] posts the points of [gpsPath] in order, each with the
    given session and employee id; each post is sent 10000 ms plus the time
    the previous one took after it. It resolves when all 40 posts succeed;
    otherwise it rejects right after the first rejected post, sending
    nothing more. *)
Theorem simulateTravel_posts_path sid eid w :
  let res := simulateTravel sid eid w in
  let n := sent_count w in
  exists new, requests (snd res) = requests w ++ new /\
    map snd new = map (fun p => PostUpdateLocation sid eid (lat p) (lng p))
                      (firstn (length new) gpsPath) /\
    (forall i t1 r1 t2 r2, new !! i = Some (t1, r1) -> new !! S i = Some (t2, r2) ->
       t2 = t1 + fst (network w (n + i)%nat) + 10000) /\
    ((fst res = Some tt /\ length new = 40%nat /\
      forall i, (i < 40)%nat -> snd (network w (n + i)%nat) <> None) \/
     (fst res = None /\ exists k, length new = S k /\ snd (network w (n + k)%nat) = None /\
        forall i, (i < k)%nat -> snd (network w (n + i)%nat) <> None)).
Proof.
  intros res n. subst res n. unfold simulateTravel.
  destruct (travel_loop_spec sid eid gpsPath w)
    as (_ & new & Hr & _ & Hm & _ & Hsp & _ & Hsucc & Hout).
  exists new. split; [exact Hr|]. split; [exact Hm|]. split; [exact Hsp|].
  rewrite gpsPath_length in Hout.
  destruct Hout as [(Hf & Hl & Ha)|(Hf & k & Hk & Hk')].
  - left. split; [exact Hf|]. split; [exact Hl|]. intros i Hi. apply Ha. lia.
  - right. split; [exact Hf|]. exists k. split; [exact Hk|]. split; [exact Hk'|].
    intros i Hi. apply Hsucc. lia.
Qed.

(** [runPipeline] always resolves (its catch only logs). The checkout is
    posted, for session [s], exactly when the employee creation succeeds,
    the session start returns [s] and all 40 location updates succeed; it
    is then the last request, sent 5000 ms after the last update settled.
    Every location update carries the employee id and the session id the
    server returned. *)
Theorem runPipeline_checkout w :
  let n := sent_count w in
  let res := runPipeline w in
  fst res = Some tt /\
  exists new, requests (snd res) = requests w ++ new /\
   (forall s, (exists t, In (t, PostCheckout s) new) <->
      (snd (network w (n + 4)%nat) <> None /\ snd (network w (n + 5)%nat) = Some s /\
       forall k, (k < 40)%nat -> snd (network w (n + 6 + k)%nat) <> None)) /\
   (forall t s e la lo, In (t, PostUpdateLocation s e la lo) new ->
      snd (network w (n + 4)%nat) = Some e /\ snd (network w (n + 5)%nat) = Some s) /\
   (forall t s, In (t, PostCheckout s) new ->
      exists pre tu u, new = pre ++ [(tu, u); (t, PostCheckout s)] /\
        (exists e la lo, u = PostUpdateLocation s e la lo) /\
        t = tu + fst (network w (n + 45)%nat) + 5000).
Proof. exact (pipeline_requests w). Qed.

End PipelineFacts.
